(** * SHA-256 of xmrigCC (src/crypto/randomx/sha256/sha256.c)

    A shallow embedding of the streaming SHA-256 implementation and of the
    SHA256d double hash, followed by the properties of the specification
    that were checked against it.

    Conventions of the embedding.
    - A [uint32_t] or [uint64_t] is a [Z]; every C operation that can wrap
      is written with its reduction modulo 2^32 or 2^64.
    - A [uint8_t] is a [Byte.byte].
    - A C array, or a pointer into one, is the list of the cells that start
      at that address.  Reading cell [i] is [l !!! i], writing it is
      [<[i:=v]> l]; [&a[k]] is [drop k a] and the cells before it are
      [take k a].
    - A [size_t] used as a length or an index is a [nat].
    - A function that mutates memory through its pointer arguments returns
      the new contents of that memory.
    - An access past the end of a list is an access out of bounds in C and
      has no defined result there; the statements below carry the sizes
      that keep every access inside ([ctx_ok], [tmp_ok], a length that does
      not exceed the memory it is given with). *)

From Stdlib Require Import ZArith Zdiv Strings.Byte Lia ZifyNat.
From stdpp Require Import base list.

#[global] Instance byte_inhabited : Inhabited byte := populate x00.

(** ** Machine integers *)

(** [uint32_t] addition. *)
Definition add32 (x y : Z) : Z := ((x + y) mod 2 ^ 32)%Z.

(** [uint64_t] addition. *)
Definition add64 (x y : Z) : Z := ((x + y) mod 2 ^ 64)%Z.

(** Left shift of a [uint32_t], the bits shifted out are lost. *)
Definition shl32 (x n : Z) : Z := (Z.shiftl x n mod 2 ^ 32)%Z.

(** Left shift of a [uint64_t]. *)
Definition shl64 (x n : Z) : Z := (Z.shiftl x n mod 2 ^ 64)%Z.

(** The value of a [uint8_t]. *)
Definition u8 (b : byte) : Z := Z.of_N (Byte.to_N b).

(** Conversion to [uint8_t]: the low eight bits. *)
Definition to_u8 (x : Z) : byte :=
  match Byte.of_N (Z.to_N (x mod 256)) with
  | Some b => b
  | None => x00
  end.

(** ** Memory primitives *)

(** [memcpy(dst, src, n)]: the first [n] cells of [dst] are replaced by the
    first [n] cells of [src]. *)
Definition memcpy {A} (dst src : list A) (n : nat) : list A :=
  take n src ++ drop n dst.

(** [memset(dst, c, n)]. *)
Definition memset {A} (dst : list A) (c : A) (n : nat) : list A :=
  replicate n c ++ drop n dst.

(** [at_ k f a]: run the writer [f] on the memory at [&a[k]]. *)
Definition at_ {A} (k : nat) (f : list A -> list A) (a : list A) : list A :=
  take k a ++ f (drop k a).

(** ** Byte-order codec (sysendian.h) *)

(** Modelled from the spec: [be32dec] of sysendian.h, which is not part of
    the sources at hand; "decodeBE32(4 bytes) -> u32", the four bytes at
    [p] read as a big-endian 32-bit integer. *)
Definition be32dec (p : list byte) : Z :=
  (u8 (p !!! 3%nat) + Z.shiftl (u8 (p !!! 2%nat)) 8
   + Z.shiftl (u8 (p !!! 1%nat)) 16 + Z.shiftl (u8 (p !!! 0%nat)) 24)%Z.

(** Modelled from the spec: [be32enc] of sysendian.h; "encodeBE32(u32) -> 4
    bytes", written at [p]. *)
Definition be32enc (p : list byte) (x : Z) : list byte :=
  to_u8 (Z.land (Z.shiftr x 24) 255) :: to_u8 (Z.land (Z.shiftr x 16) 255)
  :: to_u8 (Z.land (Z.shiftr x 8) 255) :: to_u8 (Z.land x 255)
  :: drop 4 p.

(** Modelled from the spec: [be64enc] of sysendian.h; "encodeBE64(u64) -> 8
    bytes", written at [p]. *)
Definition be64enc (p : list byte) (x : Z) : list byte :=
  to_u8 (Z.land (Z.shiftr x 56) 255) :: to_u8 (Z.land (Z.shiftr x 48) 255)
  :: to_u8 (Z.land (Z.shiftr x 40) 255) :: to_u8 (Z.land (Z.shiftr x 32) 255)
  :: to_u8 (Z.land (Z.shiftr x 24) 255) :: to_u8 (Z.land (Z.shiftr x 16) 255)
  :: to_u8 (Z.land (Z.shiftr x 8) 255) :: to_u8 (Z.land x 255)
  :: drop 8 p.

(** [be32enc_vect(dst, src, len)]: a do-while loop that encodes two words
    per iteration and stops when [--len] reaches 0.  The callers pass 4;
    [len = 0], for which the C counter would wrap around, is given the
    behaviour of [len = 1]. *)
Fixpoint be32enc_vect (dst : list byte) (src : list Z) (len : nat) : list byte :=
  let dst := be32enc dst (src !!! 0%nat) in
  let dst := at_ 4 (fun p => be32enc p (src !!! 1%nat)) dst in
  match len with
  | S (S _ as len') => take 8 dst ++ be32enc_vect (drop 8 dst) (drop 2 src) len'
  | _ => dst
  end.

(** [be32dec_vect(dst, src, len)]: decodes two words per iteration, [len]
    iterations (the same do-while loop as above). *)
Fixpoint be32dec_vect (dst : list Z) (src : list byte) (len : nat) : list Z :=
  let dst := <[0%nat := be32dec src]> dst in
  let dst := <[1%nat := be32dec (drop 4 src)]> dst in
  match len with
  | S (S _ as len') => take 2 dst ++ be32dec_vect (drop 2 dst) (drop 8 src) len'
  | _ => dst
  end.

(** ** Constants *)

(** SHA256 round constants. *)
Definition Krnd : list Z :=
  [ 0x428a2f98%Z; 0x71374491%Z; 0xb5c0fbcf%Z; 0xe9b5dba5%Z;
    0x3956c25b%Z; 0x59f111f1%Z; 0x923f82a4%Z; 0xab1c5ed5%Z;
    0xd807aa98%Z; 0x12835b01%Z; 0x243185be%Z; 0x550c7dc3%Z;
    0x72be5d74%Z; 0x80deb1fe%Z; 0x9bdc06a7%Z; 0xc19bf174%Z;
    0xe49b69c1%Z; 0xefbe4786%Z; 0x0fc19dc6%Z; 0x240ca1cc%Z;
    0x2de92c6f%Z; 0x4a7484aa%Z; 0x5cb0a9dc%Z; 0x76f988da%Z;
    0x983e5152%Z; 0xa831c66d%Z; 0xb00327c8%Z; 0xbf597fc7%Z;
    0xc6e00bf3%Z; 0xd5a79147%Z; 0x06ca6351%Z; 0x14292967%Z;
    0x27b70a85%Z; 0x2e1b2138%Z; 0x4d2c6dfc%Z; 0x53380d13%Z;
    0x650a7354%Z; 0x766a0abb%Z; 0x81c2c92e%Z; 0x92722c85%Z;
    0xa2bfe8a1%Z; 0xa81a664b%Z; 0xc24b8b70%Z; 0xc76c51a3%Z;
    0xd192e819%Z; 0xd6990624%Z; 0xf40e3585%Z; 0x106aa070%Z;
    0x19a4c116%Z; 0x1e376c08%Z; 0x2748774c%Z; 0x34b0bcb5%Z;
    0x391c0cb3%Z; 0x4ed8aa4a%Z; 0x5b9cca4f%Z; 0x682e6ff3%Z;
    0x748f82ee%Z; 0x78a5636f%Z; 0x84c87814%Z; 0x8cc70208%Z;
    0x90befffa%Z; 0xa4506ceb%Z; 0xbef9a3f7%Z; 0xc67178f2%Z ].

Definition PAD : list byte :=
  [ x80; x00; x00; x00; x00; x00; x00; x00; x00; x00; x00; x00; x00; x00; x00; x00;
    x00; x00; x00; x00; x00; x00; x00; x00; x00; x00; x00; x00; x00; x00; x00; x00;
    x00; x00; x00; x00; x00; x00; x00; x00; x00; x00; x00; x00; x00; x00; x00; x00;
    x00; x00; x00; x00; x00; x00; x00; x00; x00; x00; x00; x00; x00; x00; x00; x00 ].

(** Magic initialization constants. *)
Definition initial_state : list Z :=
  [ 0x6A09E667%Z; 0xBB67AE85%Z; 0x3C6EF372%Z; 0xA54FF53A%Z;
    0x510E527F%Z; 0x9B05688C%Z; 0x1F83D9AB%Z; 0x5BE0CD19%Z ].

(** ** Elementary functions used by SHA256 *)

Definition Ch (x y z : Z) : Z := Z.lxor (Z.land x (Z.lxor y z)) z.
Definition Maj (x y z : Z) : Z := Z.lor (Z.land x (Z.lor y z)) (Z.land y z).
Definition SHR (x n : Z) : Z := Z.shiftr x n.
Definition ROTR (x n : Z) : Z := Z.lor (Z.shiftr x n) (shl32 x (32 - n)).
Definition S0 (x : Z) : Z := Z.lxor (Z.lxor (ROTR x 2) (ROTR x 13)) (ROTR x 22).
Definition S1 (x : Z) : Z := Z.lxor (Z.lxor (ROTR x 6) (ROTR x 11)) (ROTR x 25).
Definition s0 (x : Z) : Z := Z.lxor (Z.lxor (ROTR x 7) (ROTR x 18)) (SHR x 3).
Definition s1 (x : Z) : Z := Z.lxor (Z.lxor (ROTR x 17) (ROTR x 19)) (SHR x 10).

(** SHA256 round function.  The macro arguments [a .. h] are lvalues of
    the array [S]: they are given by their indices, and the three
    assignments of the macro happen in place and in order.  The macro
    pastes its argument [k] without parentheses and [RNDr] passes the sum
    [W[i + ii] + Krnd[i + ii]]: [k] is the pair of these two summands, and
    the first assignment adds S1(e) + Ch(e, f, g) + W[i + ii] + Krnd[i + ii]
    from left to right. *)
Definition RND (S8 : list Z) (a b c d e f g h : nat) (k : Z * Z) : list Z :=
  (* h += S1(e) + Ch(e, f, g) + k; *)
  let S8 := <[h := add32 (S8 !!! h)
                 (add32 (add32 (add32 (S1 (S8 !!! e))
                                      (Ch (S8 !!! e) (S8 !!! f) (S8 !!! g)))
                               k.1)
                        k.2)]> S8 in
  (* d += h; *)
  let S8 := <[d := add32 (S8 !!! d) (S8 !!! h)]> S8 in
  (* h += S0(a) + Maj(a, b, c); *)
  <[h := add32 (S8 !!! h) (add32 (S0 (S8 !!! a)) (Maj (S8 !!! a) (S8 !!! b) (S8 !!! c)))]> S8.

(** Adjusted round function for rotating state. *)
Definition RNDr (S8 W : list Z) (i ii : nat) : list Z :=
  RND S8 ((64 - i) mod 8) ((65 - i) mod 8)
         ((66 - i) mod 8) ((67 - i) mod 8)
         ((68 - i) mod 8) ((69 - i) mod 8)
         ((70 - i) mod 8) ((71 - i) mod 8)
         (W !!! (i + ii), Krnd !!! (i + ii)).

(** Message schedule computation. *)
Definition MSCH (W : list Z) (ii i : nat) : list Z :=
  <[i + ii + 16 :=
      add32 (add32 (add32 (s1 (W !!! (i + ii + 14))) (W !!! (i + ii + 9)))
                   (s0 (W !!! (i + ii + 1))))
            (W !!! (i + ii))]> W.

(** The sixteen unrolled [RNDr] of one pass of the mixing loop. *)
Definition RNDr_x16 (S8 W : list Z) (i : nat) : list Z :=
  let S8 := RNDr S8 W 0 i in
  let S8 := RNDr S8 W 1 i in
  let S8 := RNDr S8 W 2 i in
  let S8 := RNDr S8 W 3 i in
  let S8 := RNDr S8 W 4 i in
  let S8 := RNDr S8 W 5 i in
  let S8 := RNDr S8 W 6 i in
  let S8 := RNDr S8 W 7 i in
  let S8 := RNDr S8 W 8 i in
  let S8 := RNDr S8 W 9 i in
  let S8 := RNDr S8 W 10 i in
  let S8 := RNDr S8 W 11 i in
  let S8 := RNDr S8 W 12 i in
  let S8 := RNDr S8 W 13 i in
  let S8 := RNDr S8 W 14 i in
  RNDr S8 W 15 i.

(** The sixteen unrolled [MSCH] of one pass of the mixing loop. *)
Definition MSCH_x16 (W : list Z) (i : nat) : list Z :=
  let W := MSCH W 0 i in
  let W := MSCH W 1 i in
  let W := MSCH W 2 i in
  let W := MSCH W 3 i in
  let W := MSCH W 4 i in
  let W := MSCH W 5 i in
  let W := MSCH W 6 i in
  let W := MSCH W 7 i in
  let W := MSCH W 8 i in
  let W := MSCH W 9 i in
  let W := MSCH W 10 i in
  let W := MSCH W 11 i in
  let W := MSCH W 12 i in
  let W := MSCH W 13 i in
  let W := MSCH W 14 i in
  MSCH W 15 i.

(** The loop [for (i = 0; i < 64; i += 16)] of step 3, entered with the
    current value of [i]; it leaves through [break] when [i == 48]. *)
Fixpoint mix (fuel : nat) (S8 W : list Z) (i : nat) : list Z * list Z :=
  match fuel with
  | O => (S8, W)
  | S fuel' =>
      if (i <? 64)%nat then
        let S8 := RNDr_x16 S8 W i in
        if (i =? 48)%nat then (S8, W)
        else
          let W := MSCH_x16 W i in
          mix fuel' S8 W (i + 16)
      else (S8, W)
  end.

(** SHA256 block compression function.  [state], [W] and [S8] are written
    through; the result is their new contents, in that order. *)
Definition SHA256_Transform (state : list Z) (block : list byte)
    (W S8 : list Z) : list Z * list Z * list Z :=
  (* 1. Prepare the first part of the message schedule W. *)
  let W := be32dec_vect W block 8 in
  (* 2. Initialize working variables. *)
  let S8 := memcpy S8 state 8 in
  (* 3. Mix. *)
  let '(S8, W) := mix 4 S8 W 0 in
  (* 4. Mix local working variables into global state. *)
  let state := <[0%nat := add32 (state !!! 0%nat) (S8 !!! 0%nat)]> state in
  let state := <[1%nat := add32 (state !!! 1%nat) (S8 !!! 1%nat)]> state in
  let state := <[2%nat := add32 (state !!! 2%nat) (S8 !!! 2%nat)]> state in
  let state := <[3%nat := add32 (state !!! 3%nat) (S8 !!! 3%nat)]> state in
  let state := <[4%nat := add32 (state !!! 4%nat) (S8 !!! 4%nat)]> state in
  let state := <[5%nat := add32 (state !!! 5%nat) (S8 !!! 5%nat)]> state in
  let state := <[6%nat := add32 (state !!! 6%nat) (S8 !!! 6%nat)]> state in
  let state := <[7%nat := add32 (state !!! 7%nat) (S8 !!! 7%nat)]> state in
  (state, W, S8).

(** ** The hashing context *)

(** Modelled from the spec: [SHA256_CTX] of sha256.h, which is not part of
    the sources at hand; "Context: state (8 unsigned 32-bit words),
    bitCount (unsigned 64-bit), buffer (64 bytes)". *)
Record SHA256_CTX : Type := mkCTX {
  state : list Z;   (* uint32_t state[8] *)
  count : Z;        (* uint64_t count    *)
  buf : list byte   (* uint8_t buf[64]   *)
}.

(** The call [SHA256_Transform(state, block, &tmp32[0], &tmp32[64])]: the
    two scratch areas are the first 64 and the last 8 words of [tmp32]. *)
Definition Transform_tmp32 (st : list Z) (block : list byte)
    (tmp32 : list Z) : list Z * list Z :=
  let '(st, W, S8) := SHA256_Transform st block tmp32 (drop 64 tmp32) in
  (st, take 64 W ++ S8).

(** [(ctx->count >> 3) & 0x3f]: how many bytes are buffered. *)
Definition buffered (ctx : SHA256_CTX) : nat :=
  Z.to_nat (Z.land (Z.shiftr (count ctx) 3) 0x3f).

(** Add padding and terminating bit-count. *)
Definition SHA256_Pad (ctx : SHA256_CTX) (tmp32 : list Z)
    : SHA256_CTX * list Z :=
  (* Figure out how many bytes we have buffered. *)
  let r := buffered ctx in
  (* Pad to 56 mod 64, transforming if we finish a block en route. *)
  let '(ctx, tmp32) :=
    if (r <? 56)%nat then
      (* Pad to 56 mod 64. *)
      (mkCTX (state ctx) (count ctx)
             (at_ r (fun p => memcpy p PAD (56 - r)) (buf ctx)), tmp32)
    else
      (* Finish the current block and mix. *)
      let b := at_ r (fun p => memcpy p PAD (64 - r)) (buf ctx) in
      let '(st, tmp32) := Transform_tmp32 (state ctx) b tmp32 in
      (* The start of the final block is all zeroes. *)
      (mkCTX st (count ctx) (memset b x00 56), tmp32)
  in
  (* Add the terminating bit-count. *)
  let b := at_ 56 (fun p => be64enc p (count ctx)) (buf ctx) in
  (* Mix in the final block. *)
  let '(st, tmp32) := Transform_tmp32 (state ctx) b tmp32 in
  (mkCTX st (count ctx) b, tmp32).

(** Initialize the SHA256 context [ctx]; the buffer is left as it is. *)
Definition SHA256_Init (ctx : SHA256_CTX) : SHA256_CTX :=
  (* Zero bits processed so far. *)
  (* Initialize state. *)
  mkCTX (memcpy (state ctx) initial_state 8) 0 (buf ctx).

(** The loop [while (len >= 64)] of [_SHA256_Update], on the state, the
    read pointer, the remaining length and the scratch area.  Each pass
    takes 64 from [len], so [fuel = len] passes are never used up. *)
Fixpoint Update_blocks (fuel : nat) (st : list Z) (src : list byte)
    (len : nat) (tmp32 : list Z) : list Z * list byte * nat * list Z :=
  match fuel with
  | O => (st, src, len, tmp32)
  | S fuel' =>
      if (64 <=? len)%nat then
        let '(st, tmp32) := Transform_tmp32 st src tmp32 in
        Update_blocks fuel' st (drop 64 src) (len - 64) tmp32
      else (st, src, len, tmp32)
  end.

(** Input [len] bytes from [in_] into the SHA256 context [ctx]. *)
Definition _SHA256_Update (ctx : SHA256_CTX) (in_ : list byte) (len : nat)
    (tmp32 : list Z) : SHA256_CTX * list Z :=
  let src := in_ in
  (* Return immediately if we have nothing to do. *)
  if (len =? 0)%nat then (ctx, tmp32)
  else
    (* Number of bytes left in the buffer from previous updates. *)
    let r := buffered ctx in
    (* Update number of bits. *)
    let ctx := mkCTX (state ctx)
                     (add64 (count ctx) (shl64 (Z.of_nat len) 3)) (buf ctx) in
    (* Handle the case where we don't need to perform any transforms. *)
    if (len <? 64 - r)%nat then
      (mkCTX (state ctx) (count ctx)
             (at_ r (fun p => memcpy p src len) (buf ctx)), tmp32)
    else
      (* Finish the current block. *)
      let b := at_ r (fun p => memcpy p src (64 - r)) (buf ctx) in
      let '(st, tmp32) := Transform_tmp32 (state ctx) b tmp32 in
      let src := drop (64 - r) src in
      let len := (len - (64 - r))%nat in
      (* Perform complete blocks. *)
      let '(st, src, len, tmp32) := Update_blocks len st src len tmp32 in
      (* Copy left over data into buffer. *)
      (mkCTX st (count ctx) (memcpy b src len), tmp32).

(** Output the SHA256 hash of the data input to the context [ctx] into the
    buffer [digest]. *)
Definition _SHA256_Final (digest : list byte) (ctx : SHA256_CTX)
    (tmp32 : list Z) : list byte * SHA256_CTX * list Z :=
  (* Add padding. *)
  let '(ctx, tmp32) := SHA256_Pad ctx tmp32 in
  (* Write the hash. *)
  (be32enc_vect digest (state ctx) 4, ctx, tmp32).

(** [SHA256_Buf(in, len, digest)].  The locals [ctx] and [tmp32] are not
    initialised by the function: their contents at entry are arguments
    here.  The result is the memory at [digest] on return. *)
Definition SHA256_Buf (in_ : list byte) (len : nat) (digest : list byte)
    (ctx : SHA256_CTX) (tmp32 : list Z) : list byte :=
  let ctx := SHA256_Init ctx in
  let '(ctx, tmp32) := _SHA256_Update ctx in_ len tmp32 in
  let '(digest, ctx, tmp32) := _SHA256_Final digest ctx tmp32 in
  digest.

(** [SHA256d_Buf(in, len, digest)]; the second pass reads [len] bytes at
    [digest]. *)
Definition SHA256d_Buf (in_ : list byte) (len : nat) (digest : list byte)
    (ctx : SHA256_CTX) (tmp32 : list Z) : list byte :=
  let ctx := SHA256_Init ctx in
  let '(ctx, tmp32) := _SHA256_Update ctx in_ len tmp32 in
  let '(digest, ctx, tmp32) := _SHA256_Final digest ctx tmp32 in

  let ctx := SHA256_Init ctx in
  let '(ctx, tmp32) := _SHA256_Update ctx digest len tmp32 in
  let '(digest, ctx, tmp32) := _SHA256_Final digest ctx tmp32 in
  digest.

(** ** The round function and the message schedule as the specification
       words them *)

Module Spec.

(** Ch(x,y,z) = (x AND y) XOR (NOT x AND z). *)
Definition Ch (x y z : Z) : Z := Z.lxor (Z.land x y) (Z.land (Z.lnot x) z).

(** Maj(x,y,z) = (x AND y) OR (x AND z) OR (y AND z). *)
Definition Maj (x y z : Z) : Z :=
  Z.lor (Z.lor (Z.land x y) (Z.land x z)) (Z.land y z).

Definition rotr (x n : Z) : Z := ROTR x n.
Definition Sigma0 (x : Z) : Z := Z.lxor (Z.lxor (rotr x 2) (rotr x 13)) (rotr x 22).
Definition Sigma1 (x : Z) : Z := Z.lxor (Z.lxor (rotr x 6) (rotr x 11)) (rotr x 25).
Definition sigma0 (x : Z) : Z := Z.lxor (Z.lxor (rotr x 7) (rotr x 18)) (Z.shiftr x 3).
Definition sigma1 (x : Z) : Z := Z.lxor (Z.lxor (rotr x 17) (rotr x 19)) (Z.shiftr x 10).

(** The eight working variables a .. h. *)
Definition regs : Type := Z * Z * Z * Z * Z * Z * Z * Z.

(** One round: T1 = h + Sigma1(e) + Ch(e,f,g) + K[i] + w[i], then
    h<-g, g<-f, f<-e, e<-d+T1, d<-c, c<-b, b<-a,
    a<-T1+Sigma0(a)+Maj(a,b,c), all modulo 2^32. *)
Definition round (v : regs) (Ki wi : Z) : regs :=
  let '(a, b, c, d, e, f, g, h) := v in
  let T1 := (h + Sigma1 e + Ch e f g + Ki + wi)%Z in
  (((T1 + Sigma0 a + Maj a b c) mod 2 ^ 32)%Z, a, b, c,
   ((d + T1) mod 2 ^ 32)%Z, e, f, g).

(** Words 0-15: the block decoded as 16 big-endian 32-bit integers. *)
Definition decode16 (block : list byte) : list Z :=
  map (fun j => be32dec (drop (4 * j) block)) (seq 0 16).

(** w[i] = sigma1(w[i-2]) + w[i-7] + sigma0(w[i-15]) + w[i-16]. *)
Definition next_word (w : list Z) (i : nat) : Z :=
  ((sigma1 (w !!! (i - 2)%nat) + w !!! (i - 7)%nat
    + sigma0 (w !!! (i - 15)%nat) + w !!! (i - 16)%nat) mod 2 ^ 32)%Z.

(** The 64-word schedule of a block. *)
Definition schedule (block : list byte) : list Z :=
  fold_left (fun w i => w ++ [next_word w i]) (seq 16 48) (decode16 block).

Definition regs_of (st : list Z) : regs :=
  (st !!! 0%nat, st !!! 1%nat, st !!! 2%nat, st !!! 3%nat,
   st !!! 4%nat, st !!! 5%nat, st !!! 6%nat, st !!! 7%nat).

Definition list_of (v : regs) : list Z :=
  let '(a, b, c, d, e, f, g, h) := v in [a; b; c; d; e; f; g; h].

(** The 64 rounds over a schedule [w], from the working variables [v]. *)
Definition rounds (w : list Z) (v : regs) : regs :=
  fold_left (fun v i => round v (Krnd !!! i) (w !!! i)) (seq 0 64) v.

(** Copy the state into a .. h, run the 64 rounds, add a .. h back into
    the eight state words, element-wise and modulo 2^32. *)
Definition compress (st : list Z) (block : list byte) : list Z :=
  let v := rounds (schedule block) (regs_of st) in
  zip_with (fun x y => ((x + y) mod 2 ^ 32)%Z) (take 8 st) (list_of v).

End Spec.

(** ** Auxiliary definitions for the statements *)

(** The working variables a .. h as round [i] of a pass sees them: the
    lvalues [S[(64 - i) % 8]] .. [S[(71 - i) % 8]] of [RNDr]. *)
Definition view (S8 : list Z) (i : nat) : Spec.regs :=
  (S8 !!! ((64 - i) mod 8), S8 !!! ((65 - i) mod 8),
   S8 !!! ((66 - i) mod 8), S8 !!! ((67 - i) mod 8),
   S8 !!! ((68 - i) mod 8), S8 !!! ((69 - i) mod 8),
   S8 !!! ((70 - i) mod 8), S8 !!! ((71 - i) mod 8)).


(** The schedule array as pass [k] of the mixing loop finds it: [W0] is
    the array left by step 1, and each earlier pass has run its sixteen
    [MSCH]. *)
Fixpoint W_at_pass (W0 : list Z) (k : nat) : list Z :=
  match k with
  | O => W0
  | S k' => MSCH_x16 (W_at_pass W0 k') (16 * k')
  end.


(** A context whose arrays have the sizes of the C type. *)
Definition ctx_ok (ctx : SHA256_CTX) : Prop :=
  length (state ctx) = 8%nat /\ length (buf ctx) = 64%nat.

(** A scratch area of the size the callers allocate, [uint32_t tmp32[72]]. *)
Definition tmp_ok (tmp32 : list Z) : Prop := length tmp32 = 72%nat.

(** The state after the first [n] 64-byte blocks of [data] went through
    the compression function, starting from [st]. *)
Definition absorb (st : list Z) (data : list byte) (n : nat) : list Z :=
  fold_left (fun st k => Spec.compress st (drop (64 * k) data)) (seq 0 n) st.

(** The bytes that wait in the buffer: its first [buffered ctx] cells. *)
Definition pending (ctx : SHA256_CTX) : list byte :=
  take (buffered ctx) (buf ctx).

(** [SHA256_Pad] as one call of the compression function, on the block
    [B] that it leaves in the buffer. *)
Definition Pad_once (ctx : SHA256_CTX) (tmp32 : list Z) (B : list byte)
    : SHA256_CTX * list Z :=
  let '(st, tmp32) := Transform_tmp32 (state ctx) B tmp32 in
  (mkCTX st (count ctx) B, tmp32).

(** [SHA256_Pad] as two calls of the compression function, on [A] and then
    on the block [B] that it leaves in the buffer. *)
Definition Pad_twice (ctx : SHA256_CTX) (tmp32 : list Z) (A B : list byte)
    : SHA256_CTX * list Z :=
  let '(st, tmp32) := Transform_tmp32 (state ctx) A tmp32 in
  let '(st, tmp32) := Transform_tmp32 st B tmp32 in
  (mkCTX st (count ctx) B, tmp32).

(** The state that padding and the last compression(s) give, from the
    state [st], the bit count [c] and the pending bytes [p]. *)
Definition pad_state (st : list Z) (c : Z) (p : list byte) : list Z :=
  if (length p <? 56)%nat then
    Spec.compress st
      (p ++ x80 :: replicate (55 - length p) x00 ++ be64enc [] c)
  else
    Spec.compress
      (Spec.compress st (p ++ x80 :: replicate (63 - length p) x00))
      (replicate 56 x00 ++ be64enc [] c).

(** The 32 bytes of the digest of a final state. *)
Definition digest_bytes (st : list Z) : list byte := be32enc_vect [] st 4.

(** [_SHA256_Update] once per chunk, in order. *)
Fixpoint Update_chunks (ctx : SHA256_CTX) (chunks : list (list byte))
    (tmp32 : list Z) : SHA256_CTX * list Z :=
  match chunks with
  | [] => (ctx, tmp32)
  | c :: chunks' =>
      let '(ctx, tmp32) := _SHA256_Update ctx c (length c) tmp32 in
      Update_chunks ctx chunks' tmp32
  end.

(** [SHA256_Init], then [_SHA256_Update] once per chunk, then
    [_SHA256_Final]: the memory at [digest] at the end. *)
Definition SHA256_chunks (chunks : list (list byte)) (digest : list byte)
    (ctx : SHA256_CTX) (tmp32 : list Z) : list byte :=
  let ctx := SHA256_Init ctx in
  let '(ctx, tmp32) := Update_chunks ctx chunks tmp32 in
  let '(digest, ctx, tmp32) := _SHA256_Final digest ctx tmp32 in
  digest.

(** The context holds what feeding the bytes [M] to a fresh context gives:
    the state after the complete blocks of [M], the bit count of [M] in 64
    bits, and the bytes of [M] past its last complete block. *)
Definition represents (ctx : SHA256_CTX) (M : list byte) : Prop :=
  ctx_ok ctx
  /\ state ctx = absorb initial_state M (length M / 64)
  /\ count ctx = ((8 * Z.of_nat (length M)) mod 2 ^ 64)%Z
  /\ pending ctx = drop (64 * (length M / 64)) M.

(** The digest of [M] as a function of [M] alone. *)
Definition sha256 (M : list byte) : list byte :=
  digest_bytes
    (pad_state (absorb initial_state M (length M / 64))
               ((8 * Z.of_nat (length M)) mod 2 ^ 64)%Z
               (drop (64 * (length M / 64)) M)).

(** ** Fixtures of the examples *)

(** A context, a scratch area and a digest buffer filled with zeros. *)
Definition zero_ctx : SHA256_CTX := mkCTX (replicate 8 0%Z) 0 (replicate 64 x00).
Definition zero_tmp32 : list Z := replicate 72 0%Z.
Definition zero_digest : list byte := replicate 32 x00.

(** The message "abc". *)
Definition abc : list byte := [x61; x62; x63].

(** e3b0c44298fc1c149afbf4c8996fb92427ae41e4649b934ca495991b7852b855 *)
Definition digest_empty : list byte :=
  [xe3; xb0; xc4; x42; x98; xfc; x1c; x14; x9a; xfb; xf4; xc8; x99; x6f; xb9; x24;
   x27; xae; x41; xe4; x64; x9b; x93; x4c; xa4; x95; x99; x1b; x78; x52; xb8; x55].

(** ba7816bf8f01cfea414140de5dae2223b00361a396177a9cb410ff61f20015ad *)
Definition digest_abc : list byte :=
  [xba; x78; x16; xbf; x8f; x01; xcf; xea; x41; x41; x40; xde; x5d; xae; x22; x23;
   xb0; x03; x61; xa3; x96; x17; x7a; x9c; xb4; x10; xff; x61; xf2; x00; x15; xad].

(** The integer that a byte string denotes in big-endian order. *)
Definition be_value (p : list byte) : Z :=
  fold_left (fun a b => (a * 256 + u8 b)%Z) p 0%Z.

(** The context after a message of 63 bytes 'a' went through
    [SHA256_Init] and [_SHA256_Update]. *)
Definition ctx_63 : SHA256_CTX :=
  (_SHA256_Update (SHA256_Init zero_ctx) (replicate 63 x61) 63 zero_tmp32).1.

(** 5df6e0e2761359d30a8275058e299fcc0381534545f55cf43e41983f5d4c9456, the
    SHA-256 digest of the 32 bytes of [digest_empty]. *)
Definition digest_of_digest_empty : list byte :=
  [x5d; xf6; xe0; xe2; x76; x13; x59; xd3; x0a; x82; x75; x05; x8e; x29; x9f; xcc;
   x03; x81; x53; x45; x45; xf5; x5c; xf4; x3e; x41; x98; x3f; x5d; x4c; x94; x56].


(** ** Auxiliary definitions for the further properties *)

(** A context whose fields hold values of their C types: the array sizes
    of [ctx_ok], state words below 2^32 and a count below 2^64. *)
Definition ctx_typed (ctx : SHA256_CTX) : Prop :=
  ctx_ok ctx
  /\ Forall (fun w => (0 <= w < 2 ^ 32)%Z) (state ctx)
  /\ (0 <= count ctx < 2 ^ 64)%Z.

(** The number of zero bytes in the padding of a message of [n] bytes: the
    least [k] that makes [n + 1 + k + 8] a multiple of 64. *)
Definition pad_zeros (n : nat) : nat := ((119 - n mod 64) mod 64)%nat.

(** The padding of a message of [n] bytes: 0x80, the zero bytes, and the
    bit length of the message in 64 bits, big-endian. *)
Definition padding (n : nat) : list byte :=
  x80 :: replicate (pad_zeros n) x00
      ++ be64enc [] ((8 * Z.of_nat n) mod 2 ^ 64)%Z.
(** ** Arithmetic modulo 2^32 and bitwise identities *)

Lemma add32_idemp_l x y : add32 (x mod 2 ^ 32) y = add32 x y.
Proof. unfold add32. apply Zplus_mod_idemp_l. Qed.

Lemma add32_idemp_r x y : add32 x (y mod 2 ^ 32) = add32 x y.
Proof. unfold add32. apply Zplus_mod_idemp_r. Qed.

#[local] Instance eqm32_equiv : Equivalence (eqm (2 ^ 32)) :=
  eqm_setoid (2 ^ 32).
#[local] Instance eqm32_add :
  Proper (eqm (2 ^ 32) ==> eqm (2 ^ 32) ==> eqm (2 ^ 32)) Z.add :=
  Zplus_eqm (2 ^ 32).

(** Proves an equation between two sums reduced modulo 2^32, whatever the
    places of the inner reductions. *)
Ltac add32_norm :=
  unfold add32;
  match goal with
  | |- (?X mod ?n = ?Y mod ?n)%Z => change (eqm n X Y)
  end;
  repeat setoid_rewrite (Zmod_eqm (2 ^ 32));
  unfold eqm; f_equal; lia.

Lemma Ch_spec x y z : Ch x y z = Spec.Ch x y z.
Proof.
  unfold Ch, Spec.Ch. apply Z.bits_inj'. intros n Hn.
  rewrite !Z.lxor_spec, !Z.land_spec, Z.lxor_spec, Z.lnot_spec by assumption.
  destruct (Z.testbit x n), (Z.testbit y n), (Z.testbit z n); reflexivity.
Qed.

Lemma Maj_spec x y z : Maj x y z = Spec.Maj x y z.
Proof.
  unfold Maj, Spec.Maj. apply Z.bits_inj'. intros n Hn.
  rewrite !Z.lor_spec, !Z.land_spec, Z.lor_spec.
  destruct (Z.testbit x n), (Z.testbit y n), (Z.testbit z n); reflexivity.
Qed.

(** ** One round: the in-place, index-rotating form against the
       specification's rotation of a .. h *)

Lemma RNDr_round (S8 W : list Z) (i ii : nat) :
  (8 <= length S8)%nat -> (i < 16)%nat ->
  view (RNDr S8 W i ii) (i + 1)
    = Spec.round (view S8 i) (Krnd !!! (i + ii)%nat) (W !!! (i + ii)%nat)
  /\ length (RNDr S8 W i ii) = length S8
  /\ drop 8 (RNDr S8 W i ii) = drop 8 S8.
Proof.
  intros Hlen Hi.
  unfold RNDr.
  generalize (Krnd !!! (i + ii)%nat) (W !!! (i + ii)%nat). intros k w.
  destruct S8 as [|x0 [|x1 [|x2 [|x3 [|x4 [|x5 [|x6 [|x7 rest]]]]]]]];
    simpl in Hlen; try lia.
  do 16 (destruct i as [|i];
    [ unfold view;
      cbn -[add32 S0 S1 Ch Maj Z.add Z.modulo Z.pow Spec.Sigma0 Spec.Sigma1 Spec.Ch Spec.Maj];
      rewrite <- ?Ch_spec, <- ?Maj_spec;
      change Spec.Sigma0 with S0; change Spec.Sigma1 with S1;
      split; [ | split; reflexivity ];
      repeat (f_equal; try solve [add32_norm]); fail
    | ]).
  lia.
Qed.

Lemma RNDr_x16_fold (S8 W : list Z) (i : nat) :
  RNDr_x16 S8 W i = fold_left (fun S8 j => RNDr S8 W j i) (seq 0 16) S8.
Proof. cbv [RNDr_x16 fold_left seq]. reflexivity. Qed.

Lemma MSCH_x16_fold (W : list Z) (i : nat) :
  MSCH_x16 W i = fold_left (fun W j => MSCH W j i) (seq 0 16) W.
Proof. cbv [MSCH_x16 fold_left seq]. reflexivity. Qed.

Lemma fold_left_ext_in {A B} (f g : A -> B -> A) (l : list B) (a : A) :
  (forall x b, In b l -> f x b = g x b) -> fold_left f l a = fold_left g l a.
Proof.
  revert a. induction l as [|b l IH]; intros a H; simpl; [reflexivity|].
  rewrite (H a b) by (left; reflexivity).
  apply IH. intros x b' Hb'. apply H. right; assumption.
Qed.

Lemma fold_left_seq_shift {A} (f : A -> nat -> A) (s n : nat) (a : A) :
  fold_left f (seq s n) a = fold_left (fun x j => f x (j + s)%nat) (seq 0 n) a.
Proof.
  revert a. induction n as [|n IH]; intros a; [reflexivity|].
  rewrite !seq_S, !fold_left_app. simpl. rewrite IH. f_equal. lia.
Qed.

(** The rounds [0 .. n-1] of a pass against the specification. *)
Lemma RNDr_prefix (S8 W : list Z) (i n : nat) :
  (8 <= length S8)%nat -> (n <= 16)%nat ->
  view (fold_left (fun S8 j => RNDr S8 W j i) (seq 0 n) S8) n
    = fold_left (fun v j => Spec.round v (Krnd !!! (j + i)%nat) (W !!! (j + i)%nat))
        (seq 0 n) (view S8 0)
  /\ length (fold_left (fun S8 j => RNDr S8 W j i) (seq 0 n) S8) = length S8
  /\ drop 8 (fold_left (fun S8 j => RNDr S8 W j i) (seq 0 n) S8) = drop 8 S8.
Proof.
  intros Hlen. induction n as [|n IH]; intros Hn; [repeat split|].
  rewrite seq_S, !fold_left_app. simpl fold_left.
  destruct IH as (IHv & IHl & IHd); [lia|].
  set (T := fold_left (fun S8 j => RNDr S8 W j i) (seq 0 n) S8) in *.
  destruct (RNDr_round T W n i) as (Hv & Hl & Hd); [lia | lia |].
  rewrite <- IHv. replace (S n) with (n + 1)%nat by lia.
  split; [exact Hv | split; congruence].
Qed.

Lemma view_16 (S8 : list Z) : view S8 16 = view S8 0.
Proof. reflexivity. Qed.

(** One pass of sixteen rounds. *)
Lemma RNDr_x16_spec (S8 W : list Z) (i : nat) :
  (8 <= length S8)%nat ->
  view (RNDr_x16 S8 W i) 0
    = fold_left (fun v t => Spec.round v (Krnd !!! t) (W !!! t)) (seq i 16) (view S8 0)
  /\ length (RNDr_x16 S8 W i) = length S8
  /\ drop 8 (RNDr_x16 S8 W i) = drop 8 S8.
Proof.
  intros Hlen. rewrite RNDr_x16_fold.
  rewrite (fold_left_seq_shift (fun v t => Spec.round v (Krnd !!! t) (W !!! t)) i 16).
  rewrite <- (view_16 (fold_left _ (seq 0 16) S8)).
  apply (RNDr_prefix S8 W i 16); [assumption | lia].
Qed.

(** ** The message schedule *)

(** The four passes of the mixing loop, with the array each one reads. *)
Lemma mix_passes (S8 W : list Z) :
  mix 4 S8 W 0
  = (RNDr_x16 (RNDr_x16 (RNDr_x16 (RNDr_x16 S8 (W_at_pass W 0) 0)
                                  (W_at_pass W 1) 16)
                        (W_at_pass W 2) 32)
              (W_at_pass W 3) 48,
     W_at_pass W 3).
Proof. cbv [mix W_at_pass Nat.ltb Nat.leb Nat.eqb Nat.add Nat.mul]. reflexivity. Qed.

(** The loop has left through [break] after four passes: more fuel changes
    nothing. *)
Lemma mix_fuel (fuel : nat) (S8 W : list Z) :
  (4 <= fuel)%nat -> mix fuel S8 W 0 = mix 4 S8 W 0.
Proof.
  intros H. do 4 (destruct fuel as [|fuel]; [lia|]).
  cbv [mix Nat.ltb Nat.leb Nat.eqb Nat.add]. reflexivity.
Qed.

Lemma be32dec_vect_decode16 (W : list Z) (block : list byte) :
  (16 <= length W)%nat ->
  be32dec_vect W block 8 = Spec.decode16 block ++ drop 16 W.
Proof.
  intros H.
  do 16 (destruct W as [|? W]; [simpl in H; lia|]).
  cbn -[be32dec]. rewrite !drop_drop. reflexivity.
Qed.

Lemma decode16_length block : length (Spec.decode16 block) = 16%nat.
Proof. reflexivity. Qed.

Lemma decode16_lookup block t :
  (t < 16)%nat -> Spec.decode16 block !!! t = be32dec (drop (4 * t) block).
Proof.
  intros H. do 16 (destruct t as [|t]; [reflexivity|]). lia.
Qed.

Lemma next_word_ext (w1 w2 : list Z) (t : nat) :
  (16 <= t)%nat -> (forall j, (j < t)%nat -> w1 !!! j = w2 !!! j) ->
  Spec.next_word w1 t = Spec.next_word w2 t.
Proof.
  intros Ht H. unfold Spec.next_word.
  rewrite !(H (t - 2)%nat), !(H (t - 7)%nat), !(H (t - 15)%nat), !(H (t - 16)%nat) by lia.
  reflexivity.
Qed.

(** Two arrays that agree below [a] and both obey the recurrence on
    [a .. b-1] agree below [b]. *)
Lemma recurrence_unique (w1 w2 : list Z) (a b : nat) :
  (16 <= a)%nat ->
  (forall t, (t < a)%nat -> w1 !!! t = w2 !!! t) ->
  (forall t, (a <= t < b)%nat -> w1 !!! t = Spec.next_word w1 t) ->
  (forall t, (a <= t < b)%nat -> w2 !!! t = Spec.next_word w2 t) ->
  forall t, (t < b)%nat -> w1 !!! t = w2 !!! t.
Proof.
  intros Ha H0 H1 H2 t. induction t as [t IH] using lt_wf_ind. intros Ht.
  destruct (decide (t < a)%nat) as [Hlt|Hge]; [apply H0; assumption|].
  rewrite H1, H2 by lia. apply next_word_ext; [lia|].
  intros j Hj. apply IH; lia.
Qed.

Lemma MSCH_next_word (W : list Z) (ii i : nat) :
  MSCH W ii i = <[(i + ii + 16)%nat := Spec.next_word W (i + ii + 16)]> W.
Proof.
  unfold MSCH, Spec.next_word. f_equal.
  replace (i + ii + 16 - 2)%nat with (i + ii + 14)%nat by lia.
  replace (i + ii + 16 - 7)%nat with (i + ii + 9)%nat by lia.
  replace (i + ii + 16 - 15)%nat with (i + ii + 1)%nat by lia.
  replace (i + ii + 16 - 16)%nat with (i + ii)%nat by lia.
  change Spec.sigma1 with s1. change Spec.sigma0 with s0.
  add32_norm.
Qed.

(** The first [n] schedule steps of the pass that starts at [i]. *)
Lemma MSCH_prefix (W : list Z) (i n : nat) :
  (i + 16 + n <= length W)%nat ->
  let W' := fold_left (fun W j => MSCH W j i) (seq 0 n) W in
  length W' = length W
  /\ (forall j, (j < i + 16 \/ i + 16 + n <= j)%nat -> W' !!! j = W !!! j)
  /\ (forall t, (i + 16 <= t < i + 16 + n)%nat -> W' !!! t = Spec.next_word W' t).
Proof.
  induction n as [|n IH]; intros Hn; cbn zeta.
  - simpl. repeat split; intros; try reflexivity; lia.
  - rewrite seq_S, fold_left_app. simpl fold_left.
    destruct IH as (IHl & IHs & IHr); [lia|].
    set (T := fold_left (fun W j => MSCH W j i) (seq 0 n) W) in *.
    rewrite MSCH_next_word.
    split; [rewrite length_insert; exact IHl|].
    split.
    + intros j Hj. rewrite list_lookup_total_insert_ne by lia. apply IHs. lia.
    + intros t Ht.
      assert (Hext : Spec.next_word (<[(i + n + 16)%nat := Spec.next_word T (i + n + 16)]> T) t
                     = Spec.next_word T t).
      { apply next_word_ext; [lia|]. intros j Hj.
        apply list_lookup_total_insert_ne. lia. }
      rewrite Hext.
      destruct (decide (t = i + n + 16)%nat) as [->|Hne].
      * apply list_lookup_total_insert_eq. lia.
      * rewrite list_lookup_total_insert_ne by lia. apply IHr. lia.
Qed.

(** One pass of sixteen schedule steps. *)
Lemma MSCH_x16_spec (W : list Z) (i : nat) :
  (i + 32 <= length W)%nat ->
  length (MSCH_x16 W i) = length W
  /\ (forall j, (j < i + 16 \/ i + 32 <= j)%nat -> MSCH_x16 W i !!! j = W !!! j)
  /\ (forall t, (i + 16 <= t < i + 32)%nat ->
        MSCH_x16 W i !!! t = Spec.next_word (MSCH_x16 W i) t).
Proof.
  intros H. rewrite MSCH_x16_fold.
  pose proof (MSCH_prefix W i 16) as P. cbn zeta in P.
  destruct P as (Pl & Ps & Pr); [lia|].
  split; [exact Pl|]. split; [intros j Hj; apply Ps; lia|].
  intros t Ht. apply Pr. lia.
Qed.

(** The specification's schedule: its length, its first sixteen words and
    its recurrence. *)
Lemma schedule_prefix (w0 : list Z) (n : nat) :
  length w0 = 16%nat ->
  let w := fold_left (fun w i => w ++ [Spec.next_word w i]) (seq 16 n) w0 in
  length w = (16 + n)%nat
  /\ (forall t, (t < 16)%nat -> w !!! t = w0 !!! t)
  /\ (forall t, (16 <= t < 16 + n)%nat -> w !!! t = Spec.next_word w t).
Proof.
  intros H0. induction n as [|n IH]; cbn zeta.
  - simpl. repeat split; intros; try reflexivity; lia.
  - rewrite seq_S, fold_left_app. cbn [fold_left].
    destruct IH as (IHl & IHs & IHr).
    set (T := fold_left (fun w i => w ++ [Spec.next_word w i]) (seq 16 n) w0) in *.
    split; [rewrite length_app; simpl; lia|].
    split.
    + intros t Ht. rewrite lookup_total_app_l by lia. apply IHs. assumption.
    + intros t Ht.
      assert (Hext : Spec.next_word (T ++ [Spec.next_word T (16 + n)]) t
                     = Spec.next_word T t).
      { apply next_word_ext; [lia|]. intros j Hj.
        apply lookup_total_app_l. lia. }
      rewrite Hext.
      destruct (decide (t = 16 + n)%nat) as [->|Hne].
      * rewrite lookup_total_app_r by lia.
        replace (16 + n - length T)%nat with 0%nat by lia. reflexivity.
      * rewrite lookup_total_app_l by lia. apply IHr. lia.
Qed.

Lemma schedule_length block : length (Spec.schedule block) = 64%nat.
Proof.
  pose proof (schedule_prefix (Spec.decode16 block) 48 (decode16_length block)) as P.
  cbn zeta in P. apply P.
Qed.

Lemma schedule_lookup_lo block t :
  (t < 16)%nat -> Spec.schedule block !!! t = be32dec (drop (4 * t) block).
Proof.
  intros Ht.
  pose proof (schedule_prefix (Spec.decode16 block) 48 (decode16_length block)) as P.
  cbn zeta in P. destruct P as (_ & P & _).
  unfold Spec.schedule. rewrite P by assumption. apply decode16_lookup. assumption.
Qed.

Lemma schedule_lookup_hi block t :
  (16 <= t < 64)%nat ->
  Spec.schedule block !!! t = Spec.next_word (Spec.schedule block) t.
Proof.
  intros Ht.
  pose proof (schedule_prefix (Spec.decode16 block) 48 (decode16_length block)) as P.
  cbn zeta in P. destruct P as (_ & _ & P).
  unfold Spec.schedule. apply P. lia.
Qed.

(** The array of pass [k] holds the specification's schedule on every
    index below [16 * (k + 1)], the part that passes [0 .. k] read. *)
Lemma W_at_pass_schedule (W : list Z) (block : list byte) (k : nat) :
  (64 <= length W)%nat -> (k <= 3)%nat ->
  length (W_at_pass (be32dec_vect W block 8) k) = length W
  /\ forall t, (t < 16 * (k + 1))%nat ->
       W_at_pass (be32dec_vect W block 8) k !!! t = Spec.schedule block !!! t.
Proof.
  intros HW. induction k as [|k IH]; intros Hk.
  - cbn [W_at_pass]. rewrite be32dec_vect_decode16 by lia. split.
    + rewrite length_app, decode16_length, length_drop. lia.
    + intros t Ht. rewrite lookup_total_app_l by (rewrite decode16_length; lia).
      rewrite decode16_lookup, schedule_lookup_lo by lia. reflexivity.
  - destruct IH as (IHl & IHa); [lia|].
    cbn [W_at_pass].
    set (T := W_at_pass (be32dec_vect W block 8) k) in *.
    destruct (MSCH_x16_spec T (16 * k)) as (Ml & Ms & Mr); [lia|].
    split; [congruence|].
    apply (recurrence_unique _ _ (16 * (k + 1)) (16 * (S k + 1))).
    + lia.
    + intros t Ht. rewrite Ms by lia. apply IHa. assumption.
    + intros t Ht. apply Mr. lia.
    + intros t Ht. apply schedule_lookup_hi. lia.
Qed.


(** ** The compression function against the specification *)

(** Pass [k] of the mixing loop runs rounds [16k .. 16k+15] of the
    specification on the specification's schedule. *)
Lemma pass_spec (S8 W : list Z) (block : list byte) (k : nat) :
  (8 <= length S8)%nat -> (64 <= length W)%nat -> (k <= 3)%nat ->
  view (RNDr_x16 S8 (W_at_pass (be32dec_vect W block 8) k) (16 * k)) 0
    = fold_left (fun v t => Spec.round v (Krnd !!! t) (Spec.schedule block !!! t))
        (seq (16 * k) 16) (view S8 0)
  /\ length (RNDr_x16 S8 (W_at_pass (be32dec_vect W block 8) k) (16 * k)) = length S8
  /\ drop 8 (RNDr_x16 S8 (W_at_pass (be32dec_vect W block 8) k) (16 * k)) = drop 8 S8.
Proof.
  intros HS HW Hk.
  destruct (RNDr_x16_spec S8 (W_at_pass (be32dec_vect W block 8) k) (16 * k) HS)
    as (Hv & Hl & Hd).
  split; [|split; assumption].
  rewrite Hv. apply fold_left_ext_in. intros v t Ht.
  apply in_seq in Ht.
  destruct (W_at_pass_schedule W block k HW Hk) as (_ & Ha).
  rewrite Ha by lia. reflexivity.
Qed.

Lemma rounds_split (w : list Z) (v : Spec.regs) :
  Spec.rounds w v
  = fold_left (fun v t => Spec.round v (Krnd !!! t) (w !!! t)) (seq 48 16)
      (fold_left (fun v t => Spec.round v (Krnd !!! t) (w !!! t)) (seq 32 16)
        (fold_left (fun v t => Spec.round v (Krnd !!! t) (w !!! t)) (seq 16 16)
          (fold_left (fun v t => Spec.round v (Krnd !!! t) (w !!! t)) (seq 0 16) v))).
Proof.
  unfold Spec.rounds.
  change (seq 0 64) with (seq 0 16 ++ seq 16 16 ++ seq 32 16 ++ seq 48 16).
  rewrite !fold_left_app. reflexivity.
Qed.

(** Step 3 of [SHA256_Transform]: the interleaved loop computes the 64
    rounds of the specification. *)
Lemma mix_spec (S8 W : list Z) (block : list byte) :
  (8 <= length S8)%nat -> (64 <= length W)%nat ->
  view (mix 4 S8 (be32dec_vect W block 8) 0).1 0
    = Spec.rounds (Spec.schedule block) (view S8 0)
  /\ length (mix 4 S8 (be32dec_vect W block 8) 0).1 = length S8
  /\ drop 8 (mix 4 S8 (be32dec_vect W block 8) 0).1 = drop 8 S8
  /\ (mix 4 S8 (be32dec_vect W block 8) 0).2 = W_at_pass (be32dec_vect W block 8) 3.
Proof.
  intros HS HW. rewrite mix_passes. cbn [fst snd].
  set (W0 := be32dec_vect W block 8).
  destruct (pass_spec S8 W block 0 HS HW) as (H0v & H0l & H0d); [lia|].
  fold W0 in H0v, H0l, H0d. change (16 * 0)%nat with 0%nat in *.
  set (T0 := RNDr_x16 S8 (W_at_pass W0 0) 0) in *.
  destruct (pass_spec T0 W block 1) as (H1v & H1l & H1d); [lia..|].
  fold W0 in H1v, H1l, H1d. change (16 * 1)%nat with 16%nat in *.
  set (T1 := RNDr_x16 T0 (W_at_pass W0 1) 16) in *.
  destruct (pass_spec T1 W block 2) as (H2v & H2l & H2d); [lia..|].
  fold W0 in H2v, H2l, H2d. change (16 * 2)%nat with 32%nat in *.
  set (T2 := RNDr_x16 T1 (W_at_pass W0 2) 32) in *.
  destruct (pass_spec T2 W block 3) as (H3v & H3l & H3d); [lia..|].
  fold W0 in H3v, H3l, H3d. change (16 * 3)%nat with 48%nat in *.
  set (T3 := RNDr_x16 T2 (W_at_pass W0 3) 48) in *.
  split; [|split; [lia | split; [congruence | reflexivity]]].
  rewrite rounds_split, <- H0v, <- H1v, <- H2v. exact H3v.
Qed.

(** The compression function computes the specification's: its new state
    is [Spec.compress], whatever the scratch areas held. *)
Lemma Transform_spec (st : list Z) (block : list byte) (W S8 : list Z) :
  length st = 8%nat -> (64 <= length W)%nat ->
  (SHA256_Transform st block W S8).1.1 = Spec.compress st block
  /\ length (SHA256_Transform st block W S8).1.2 = length W
  /\ length (SHA256_Transform st block W S8).2 = (8 + (length S8 - 8))%nat.
Proof.
  intros Hst HW. unfold SHA256_Transform.
  assert (HS : (8 <= length (memcpy S8 st 8))%nat).
  { unfold memcpy. rewrite length_app, length_take. lia. }
  destruct (mix_spec (memcpy S8 st 8) W block HS HW) as (Mv & Ml & Md & MW).
  destruct (mix 4 (memcpy S8 st 8) (be32dec_vect W block 8) 0) as [S' W'].
  cbn [fst snd] in *. subst W'.
  split; [|split].
  - unfold Spec.compress.
    assert (Hv : view (memcpy S8 st 8) 0 = Spec.regs_of st).
    { unfold memcpy. rewrite firstn_all2 by lia.
      unfold view, Spec.regs_of. cbn [Nat.sub Nat.modulo Nat.divmod fst snd].
      rewrite !lookup_total_app_l by lia. reflexivity. }
    rewrite <- Hv, <- Mv. clear Mv Hv Ml Md HS.
    destruct st as [|a0 [|a1 [|a2 [|a3 [|a4 [|a5 [|a6 [|a7 [|]]]]]]]]];
      try discriminate Hst.
    reflexivity.
  - destruct (W_at_pass_schedule W block 3 HW) as (Hl & _); [lia|]. exact Hl.
  - rewrite Ml. unfold memcpy. rewrite length_app, length_take, length_drop. lia.
Qed.

(** ** The compression function reads 64 bytes *)

Lemma take_take_le {A} (l : list A) (n m : nat) :
  (n <= m)%nat -> take n (take m l) = take n l.
Proof. intros H. rewrite take_take, Nat.min_l by assumption. reflexivity. Qed.

Lemma be32dec_ext (p q : list byte) :
  take 4 p = take 4 q -> be32dec p = be32dec q.
Proof.
  intros H. unfold be32dec.
  rewrite <- !(lookup_total_take_lt p 4), <- !(lookup_total_take_lt q 4), H by lia.
  reflexivity.
Qed.

Lemma decode16_ext (b1 b2 : list byte) :
  take 64 b1 = take 64 b2 -> Spec.decode16 b1 = Spec.decode16 b2.
Proof.
  intros H. unfold Spec.decode16. apply map_ext_in. intros j Hj.
  apply in_seq in Hj. apply be32dec_ext.
  rewrite !take_drop_commute.
  rewrite <- (take_take_le b1 (4 * j + 4) 64), <- (take_take_le b2 (4 * j + 4) 64), H by lia.
  reflexivity.
Qed.

Lemma compress_ext (st : list Z) (b1 b2 : list byte) :
  take 64 b1 = take 64 b2 -> Spec.compress st b1 = Spec.compress st b2.
Proof.
  intros H. unfold Spec.compress, Spec.schedule.
  rewrite (decode16_ext b1 b2 H). reflexivity.
Qed.

Lemma compress_length (st : list Z) (block : list byte) :
  length st = 8%nat -> length (Spec.compress st block) = 8%nat.
Proof.
  intros H. unfold Spec.compress.
  rewrite length_zip_with, length_take.
  destruct (Spec.rounds _ _) as [[[[[[[a b] c] d] e] f] g] h].
  rewrite H. reflexivity.
Qed.

(** The call with the scratch area [tmp32]. *)
Lemma Transform_tmp32_spec (st : list Z) (block : list byte) (tmp32 : list Z) :
  length st = 8%nat -> tmp_ok tmp32 ->
  (Transform_tmp32 st block tmp32).1 = Spec.compress st block
  /\ tmp_ok (Transform_tmp32 st block tmp32).2.
Proof.
  intros Hst Htmp. unfold tmp_ok in *. unfold Transform_tmp32.
  destruct (Transform_spec st block tmp32 (drop 64 tmp32) Hst) as (H1 & H2 & H3);
    [lia|].
  destruct (SHA256_Transform st block tmp32 (drop 64 tmp32)) as [[st' W'] S'].
  cbn [fst snd] in *. split; [assumption|].
  rewrite length_app, length_take, H2, H3, length_drop. lia.
Qed.

(** ** Absorbing blocks *)

Lemma absorb_0 st data : absorb st data 0 = st.
Proof. reflexivity. Qed.

Lemma absorb_S_front st data n :
  absorb st data (S n) = absorb (Spec.compress st data) (drop 64 data) n.
Proof.
  unfold absorb. cbn [seq fold_left].
  rewrite (fold_left_seq_shift _ 1 n). rewrite Nat.mul_0_r, drop_0.
  apply fold_left_ext_in. intros x k _.
  rewrite drop_drop. f_equal. f_equal. lia.
Qed.

Lemma absorb_S_back st data n :
  absorb st data (S n) = Spec.compress (absorb st data n) (drop (64 * n) data).
Proof. unfold absorb. rewrite seq_S, fold_left_app. reflexivity. Qed.

Lemma absorb_length st data n :
  length st = 8%nat -> length (absorb st data n) = 8%nat.
Proof.
  intros H. induction n as [|n IH]; [assumption|].
  rewrite absorb_S_back. apply compress_length. assumption.
Qed.

Lemma absorb_ext st d1 d2 n :
  take (64 * n) d1 = take (64 * n) d2 -> absorb st d1 n = absorb st d2 n.
Proof.
  intros H. unfold absorb. apply fold_left_ext_in. intros x k Hk.
  apply in_seq in Hk. apply compress_ext.
  rewrite !take_drop_commute.
  rewrite <- (take_take_le d1 (64 * k + 64) (64 * n)),
          <- (take_take_le d2 (64 * k + 64) (64 * n)), H by lia.
  reflexivity.
Qed.

Lemma absorb_add st data a n :
  absorb st data (a + n) = absorb (absorb st data a) (drop (64 * a) data) n.
Proof.
  revert st data. induction a as [|a IH]; intros st data.
  - rewrite Nat.mul_0_r, drop_0. reflexivity.
  - cbn [Nat.add]. rewrite !absorb_S_front, IH, drop_drop.
    replace (64 * S a)%nat with (64 + 64 * a)%nat by lia. reflexivity.
Qed.

(** ** The byte counter *)

(** Linear arithmetic with division and remainder by constants. *)
Ltac divmod_lia := zify; Z.to_euclidean_division_equations; lia.

Lemma buffered_eq (ctx : SHA256_CTX) :
  buffered ctx = Z.to_nat ((count ctx / 8) mod 64).
Proof.
  unfold buffered. change 0x3f%Z with (Z.ones 6).
  rewrite Z.land_ones, Z.shiftr_div_pow2 by lia. reflexivity.
Qed.

Lemma buffered_lt (ctx : SHA256_CTX) : (buffered ctx < 64)%nat.
Proof. rewrite buffered_eq. divmod_lia. Qed.

(** Once [n] bytes were counted, [n mod 64] of them are buffered; this
    holds across the wrap-around of the 64-bit counter. *)
Lemma buffered_count (ctx : SHA256_CTX) (n : nat) :
  count ctx = ((8 * Z.of_nat n) mod 2 ^ 64)%Z -> buffered ctx = (n mod 64)%nat.
Proof. intros H. rewrite buffered_eq, H. divmod_lia. Qed.

Lemma count_add (c : Z) (len : nat) :
  add64 c (shl64 (Z.of_nat len) 3) = ((c + 8 * Z.of_nat len) mod 2 ^ 64)%Z.
Proof.
  unfold add64, shl64. rewrite Z.shiftl_mul_pow2 by lia. divmod_lia.
Qed.

(** ** The loop over complete blocks *)

Lemma Update_blocks_spec (fuel : nat) (st : list Z) (src : list byte)
    (len : nat) (tmp32 : list Z) :
  length st = 8%nat -> tmp_ok tmp32 -> (len / 64 <= fuel)%nat ->
  (Update_blocks fuel st src len tmp32).1.1.1 = absorb st src (len / 64)
  /\ (Update_blocks fuel st src len tmp32).1.1.2 = drop (64 * (len / 64)) src
  /\ (Update_blocks fuel st src len tmp32).1.2 = (len mod 64)%nat
  /\ tmp_ok (Update_blocks fuel st src len tmp32).2.
Proof.
  revert st src len tmp32.
  induction fuel as [|fuel IH]; intros st src len tmp32 Hst Htmp Hfuel.
  - assert (len / 64 = 0)%nat as E by lia. cbn [Update_blocks fst snd]. rewrite E.
    rewrite absorb_0, Nat.mul_0_r, drop_0.
    repeat split; try assumption. divmod_lia.
  - cbn [Update_blocks].
    destruct (64 <=? len)%nat eqn:Hle.
    + apply Nat.leb_le in Hle.
      destruct (Transform_tmp32_spec st src tmp32 Hst Htmp) as (T1 & T2).
      destruct (Transform_tmp32 st src tmp32) as [st' tmp'].
      cbn [fst snd] in T1, T2. subst st'.
      destruct (IH (Spec.compress st src) (drop 64 src) (len - 64)%nat tmp')
        as (I1 & I2 & I3 & I4);
        [apply compress_length; assumption | assumption | divmod_lia |].
      assert (len / 64 = S ((len - 64) / 64))%nat as E by divmod_lia.
      rewrite E, absorb_S_front, I1, I2, I3, drop_drop.
      replace (64 * S ((len - 64) / 64))%nat with (64 + 64 * ((len - 64) / 64))%nat by lia.
      repeat split; try assumption. divmod_lia.
    + apply Nat.leb_gt in Hle.
      assert (len / 64 = 0)%nat as E by divmod_lia. cbn [fst snd]. rewrite E.
      rewrite absorb_0, Nat.mul_0_r, drop_0.
      repeat split; try assumption. divmod_lia.
Qed.

(** ** [_SHA256_Update] *)

Lemma Update_spec (ctx : SHA256_CTX) (in_ : list byte) (len : nat) (tmp32 : list Z) :
  ctx_ok ctx -> tmp_ok tmp32 -> (len <= length in_)%nat ->
  ctx_ok (_SHA256_Update ctx in_ len tmp32).1
  /\ tmp_ok (_SHA256_Update ctx in_ len tmp32).2
  /\ state (_SHA256_Update ctx in_ len tmp32).1
       = absorb (state ctx) (pending ctx ++ take len in_) ((buffered ctx + len) / 64)
  /\ take ((buffered ctx + len) mod 64) (buf (_SHA256_Update ctx in_ len tmp32).1)
       = drop (64 * ((buffered ctx + len) / 64)) (pending ctx ++ take len in_)
  /\ count (_SHA256_Update ctx in_ len tmp32).1
       = if (len =? 0)%nat then count ctx
         else ((count ctx + 8 * Z.of_nat len) mod 2 ^ 64)%Z.
Proof.
  intros [Hst Hbuf] Htmp Hlen. pose proof (buffered_lt ctx) as Hr.
  unfold _SHA256_Update, pending. set (r := buffered ctx) in *.
  assert (Hp : length (take r (buf ctx)) = r) by (rewrite length_take; lia).
  assert (Hi : length (take len in_) = len) by (rewrite length_take; lia).
  destruct (len =? 0)%nat eqn:E0.
  - apply Nat.eqb_eq in E0. subst len. cbn [fst snd].
    assert ((r + 0) / 64 = 0)%nat as -> by divmod_lia.
    assert ((r + 0) mod 64 = r)%nat as -> by divmod_lia.
    rewrite absorb_0, Nat.mul_0_r, drop_0, take_0, app_nil_r.
    repeat split; assumption.
  - apply Nat.eqb_neq in E0. cbn [state count buf].
    destruct (len <? 64 - r)%nat eqn:E1.
    + apply Nat.ltb_lt in E1. cbn [fst snd state count buf].
      assert ((r + len) / 64 = 0)%nat as -> by divmod_lia.
      assert ((r + len) mod 64 = r + len)%nat as -> by divmod_lia.
      rewrite absorb_0, Nat.mul_0_r, drop_0.
      unfold at_, memcpy.
      split; [split; [assumption|]|].
      { cbn [buf]. rewrite !length_app, Hp, Hi, !length_drop. lia. }
      split; [assumption|]. split; [reflexivity|]. split; [|apply count_add].
      rewrite app_assoc, take_app_le by (rewrite length_app; lia).
      apply take_ge. rewrite length_app. lia.
    + apply Nat.ltb_ge in E1.
      set (b := at_ r (fun p => memcpy p in_ (64 - r)) (buf ctx)).
      assert (Hb : b = take r (buf ctx) ++ take (64 - r) in_).
      { unfold b, at_, memcpy. rewrite drop_drop.
        rewrite (drop_ge (buf ctx)) by lia. rewrite app_nil_r. reflexivity. }
      assert (Hbl : length b = 64%nat).
      { rewrite Hb, length_app, Hp, length_take. lia. }
      destruct (Transform_tmp32_spec (state ctx) b tmp32 Hst Htmp) as (T1 & T2).
      destruct (Transform_tmp32 (state ctx) b tmp32) as [st1 tmp1].
      cbn [fst snd] in T1, T2. subst st1.
      destruct (Update_blocks_spec (len - (64 - r)) (Spec.compress (state ctx) b)
                  (drop (64 - r) in_) (len - (64 - r)) tmp1)
        as (U1 & U2 & U3 & U4);
        [apply compress_length; assumption | assumption | divmod_lia |].
      destruct (Update_blocks (len - (64 - r)) (Spec.compress (state ctx) b)
                  (drop (64 - r) in_) (len - (64 - r)) tmp1)
        as [[[st2 src2] len2] tmp2].
      cbn [fst snd] in U1, U2, U3, U4. cbn [fst snd state count buf].
      subst st2 src2 len2.
      set (data := take r (buf ctx) ++ take len in_).
      set (len1 := (len - (64 - r))%nat) in *.
      set (k := (len1 / 64)%nat) in *.
      assert ((r + len) / 64 = S k)%nat as -> by (unfold k, len1; divmod_lia).
      assert ((r + len) mod 64 = len1 mod 64)%nat as -> by (unfold len1; divmod_lia).
      assert (Hd64 : drop 64 data = take len1 (drop (64 - r) in_)).
      { unfold data. rewrite drop_app_ge by lia. rewrite Hp.
        rewrite take_drop_commute. f_equal. f_equal. unfold len1. lia. }
      assert (Ht64 : take 64 data = take 64 b).
      { unfold data. rewrite Hb, !take_app_ge, Hp by lia.
        rewrite take_take_le by lia.
        rewrite (take_ge (take (64 - r) in_)) by (rewrite length_take; lia).
        reflexivity. }
      split; [split; [apply absorb_length; apply compress_length; assumption|]|].
      { cbn [buf]. unfold memcpy. rewrite length_app, length_take, !length_drop.
        unfold k, len1. divmod_lia. }
      split; [assumption|]. split; [|split; [|apply count_add]].
      * rewrite absorb_S_front, Hd64, (compress_ext _ _ _ Ht64).
        apply absorb_ext. rewrite take_take_le by (unfold k, len1; divmod_lia). reflexivity.
      * unfold memcpy.
        rewrite take_app_le by (rewrite length_take, !length_drop; unfold k, len1; divmod_lia).
        rewrite take_idemp.
        replace (64 * S k)%nat with (64 + 64 * k)%nat by lia.
        rewrite <- drop_drop, Hd64, take_drop_commute.
        replace (64 * k + len1 mod 64)%nat with len1 by (unfold k; divmod_lia).
        reflexivity.
Qed.

(** ** [SHA256_Pad] *)

Lemma be64enc_app (p : list byte) (c : Z) :
  be64enc p c = be64enc [] c ++ drop 8 p.
Proof. reflexivity. Qed.

Lemma be64enc_length (c : Z) : length (be64enc [] c) = 8%nat.
Proof. reflexivity. Qed.

Lemma take_PAD (n : nat) :
  (n <= 63)%nat -> take (S n) PAD = x80 :: replicate n x00.
Proof.
  intros H. change PAD with (x80 :: replicate 63 x00).
  cbn [take]. rewrite take_replicate, Nat.min_l by assumption. reflexivity.
Qed.

Lemma pending_length (ctx : SHA256_CTX) :
  ctx_ok ctx -> length (pending ctx) = buffered ctx.
Proof.
  intros [_ Hb]. pose proof (buffered_lt ctx). unfold pending.
  rewrite length_take. lia.
Qed.

(** The padded blocks and the number of compressions. *)
Lemma Pad_cases (ctx : SHA256_CTX) (tmp32 : list Z) :
  ctx_ok ctx ->
  ((buffered ctx < 56)%nat ->
     SHA256_Pad ctx tmp32
     = Pad_once ctx tmp32
         (pending ctx ++ x80 :: replicate (55 - buffered ctx) x00
            ++ be64enc [] (count ctx)))
  /\ ((56 <= buffered ctx)%nat ->
        SHA256_Pad ctx tmp32
        = Pad_twice ctx tmp32
            (pending ctx ++ x80 :: replicate (63 - buffered ctx) x00)
            (replicate 56 x00 ++ be64enc [] (count ctx))).
Proof.
  intros Hok. pose proof (pending_length ctx Hok) as Hp. destruct Hok as [Hst Hbuf].
  pose proof (buffered_lt ctx) as Hr.
  unfold SHA256_Pad, Pad_once, Pad_twice, pending in *.
  set (r := buffered ctx) in *. split; intros Hcase.
  - assert ((r <? 56)%nat = true) as -> by (apply Nat.ltb_lt; assumption).
    cbn [state count buf].
    assert (E : at_ 56 (fun p => be64enc p (count ctx))
                  (at_ r (fun p => memcpy p PAD (56 - r)) (buf ctx))
                = take r (buf ctx) ++ x80 :: replicate (55 - r) x00
                    ++ be64enc [] (count ctx)).
    { unfold at_, memcpy.
      replace (56 - r)%nat with (S (55 - r)) by lia. rewrite take_PAD by lia.
      rewrite drop_drop, app_assoc.
      rewrite take_app_length' by (rewrite length_app, Hp; simpl; rewrite length_replicate; lia).
      rewrite drop_app_length' by (rewrite length_app, Hp; simpl; rewrite length_replicate; lia).
      rewrite be64enc_app, drop_drop, (drop_ge (buf ctx)) by lia.
      rewrite app_nil_r, <- app_assoc. reflexivity. }
    rewrite E. reflexivity.
  - assert ((r <? 56)%nat = false) as -> by (apply Nat.ltb_ge; assumption).
    assert (E1 : at_ r (fun p => memcpy p PAD (64 - r)) (buf ctx)
                 = take r (buf ctx) ++ x80 :: replicate (63 - r) x00).
    { unfold at_, memcpy.
      replace (64 - r)%nat with (S (63 - r)) by lia. rewrite take_PAD by lia.
      rewrite drop_drop, (drop_ge (buf ctx)) by lia.
      rewrite app_nil_r. reflexivity. }
    rewrite E1.
    set (A := take r (buf ctx) ++ x80 :: replicate (63 - r) x00) in *.
    assert (HA : length A = 64%nat).
    { unfold A. rewrite length_app, Hp. simpl. rewrite length_replicate. lia. }
    destruct (Transform_tmp32 (state ctx) A tmp32) as [st1 tmp1].
    cbn [state count buf].
    assert (E2 : at_ 56 (fun p => be64enc p (count ctx)) (memset A x00 56)
                 = replicate 56 x00 ++ be64enc [] (count ctx)).
    { unfold at_, memset.
      rewrite take_app_length' by (rewrite length_replicate; reflexivity).
      rewrite drop_app_length' by (rewrite length_replicate; reflexivity).
      rewrite be64enc_app, drop_drop, (drop_ge A) by lia.
      rewrite app_nil_r. reflexivity. }
    rewrite E2. reflexivity.
Qed.

Lemma Pad_spec (ctx : SHA256_CTX) (tmp32 : list Z) :
  ctx_ok ctx -> tmp_ok tmp32 ->
  state (SHA256_Pad ctx tmp32).1 = pad_state (state ctx) (count ctx) (pending ctx)
  /\ count (SHA256_Pad ctx tmp32).1 = count ctx
  /\ drop 56 (buf (SHA256_Pad ctx tmp32).1) = be64enc [] (count ctx)
  /\ ctx_ok (SHA256_Pad ctx tmp32).1
  /\ tmp_ok (SHA256_Pad ctx tmp32).2.
Proof.
  intros Hok Htmp. pose proof (pending_length ctx Hok) as Hp.
  destruct (Pad_cases ctx tmp32 Hok) as [H1 H2].
  pose proof (buffered_lt ctx) as Hr. destruct Hok as [Hst Hbuf].
  unfold pad_state. rewrite Hp.
  destruct (buffered ctx <? 56)%nat eqn:E.
  - apply Nat.ltb_lt in E. rewrite (H1 E). unfold Pad_once.
    set (B := pending ctx ++ _).
    assert (HB : length B = 64%nat).
    { unfold B. rewrite length_app, Hp. simpl. rewrite length_app, length_replicate. simpl. lia. }
    destruct (Transform_tmp32_spec (state ctx) B tmp32 Hst Htmp) as (T1 & T2).
    destruct (Transform_tmp32 (state ctx) B tmp32) as [st1 tmp1].
    cbn [fst snd state count buf] in *. subst st1.
    repeat split; try assumption; try reflexivity.
    + unfold B. rewrite drop_app_ge by lia. rewrite Hp.
      replace (56 - buffered ctx)%nat with (S (55 - buffered ctx)) by lia.
      cbn [drop]. rewrite drop_app_length' by (rewrite length_replicate; reflexivity).
      reflexivity.
    + apply compress_length. assumption.
  - apply Nat.ltb_ge in E. rewrite (H2 E). unfold Pad_twice.
    set (A := pending ctx ++ _). set (B := replicate 56 x00 ++ _).
    destruct (Transform_tmp32_spec (state ctx) A tmp32 Hst Htmp) as (T1 & T2).
    destruct (Transform_tmp32 (state ctx) A tmp32) as [st1 tmp1].
    cbn [fst snd] in T1, T2. subst st1.
    assert (Hst1 : length (Spec.compress (state ctx) A) = 8%nat)
      by (apply compress_length; assumption).
    destruct (Transform_tmp32_spec (Spec.compress (state ctx) A) B tmp1 Hst1 T2) as (U1 & U2).
    destruct (Transform_tmp32 (Spec.compress (state ctx) A) B tmp1) as [st2 tmp2].
    cbn [fst snd state count buf] in *. subst st2.
    repeat split; try assumption; try reflexivity.
    apply compress_length. assumption.
Qed.

(** ** [_SHA256_Final] *)

Lemma be32enc_vect_4 (d : list byte) (st : list Z) :
  be32enc_vect d st 4 = digest_bytes st ++ drop 32 d.
Proof.
  unfold digest_bytes.
  do 32 (destruct d as [|? d]; [reflexivity|]). reflexivity.
Qed.

Lemma digest_bytes_length (st : list Z) : length (digest_bytes st) = 32%nat.
Proof. reflexivity. Qed.

Lemma Final_spec (digest : list byte) (ctx : SHA256_CTX) (tmp32 : list Z) :
  ctx_ok ctx -> tmp_ok tmp32 ->
  (_SHA256_Final digest ctx tmp32).1.1
  = digest_bytes (pad_state (state ctx) (count ctx) (pending ctx)) ++ drop 32 digest.
Proof.
  intros Hok Htmp. unfold _SHA256_Final.
  destruct (Pad_spec ctx tmp32 Hok Htmp) as (P1 & _).
  destruct (SHA256_Pad ctx tmp32) as [ctx1 tmp1]. cbn [fst snd] in *.
  rewrite be32enc_vect_4, P1. reflexivity.
Qed.

(** ** The context invariant *)

Lemma Init_ok (ctx : SHA256_CTX) : ctx_ok ctx -> ctx_ok (SHA256_Init ctx).
Proof.
  intros [Hst Hbuf]. split; [|exact Hbuf]. cbn [state SHA256_Init].
  unfold memcpy. rewrite length_app, length_take, length_drop, Hst. reflexivity.
Qed.

Lemma Init_represents (ctx : SHA256_CTX) :
  ctx_ok ctx -> represents (SHA256_Init ctx) [].
Proof.
  intros Hok. split; [apply Init_ok; assumption|]. destruct Hok as [Hst Hbuf].
  cbn [state count SHA256_Init].
  split; [|split; [reflexivity|reflexivity]].
  unfold memcpy. rewrite (drop_ge (state ctx)) by lia. reflexivity.
Qed.

Lemma represents_buffered ctx M :
  represents ctx M -> buffered ctx = (length M mod 64)%nat.
Proof. intros (_ & _ & Hc & _). apply buffered_count. assumption. Qed.

Lemma Update_represents (ctx : SHA256_CTX) (M in_ : list byte) (len : nat)
    (tmp32 : list Z) :
  represents ctx M -> tmp_ok tmp32 -> (len <= length in_)%nat ->
  represents (_SHA256_Update ctx in_ len tmp32).1 (M ++ take len in_)
  /\ tmp_ok (_SHA256_Update ctx in_ len tmp32).2.
Proof.
  intros HR Htmp Hlen. pose proof (represents_buffered ctx M HR) as Hr.
  destruct HR as (Hok & Hs & Hc & Hp).
  destruct (Update_spec ctx in_ len tmp32 Hok Htmp Hlen) as (U1 & U2 & U3 & U4 & U5).
  set (ctx' := (_SHA256_Update ctx in_ len tmp32).1) in *.
  assert (Hi : length (take len in_) = len) by (rewrite length_take; lia).
  set (c := take len in_) in *.
  assert (Hc' : count ctx' = ((8 * Z.of_nat (length (M ++ c))) mod 2 ^ 64)%Z).
  { rewrite U5, length_app, Hi, Hc. destruct (len =? 0)%nat eqn:E.
    - apply Nat.eqb_eq in E. subst len. f_equal. lia.
    - divmod_lia. }
  pose proof (buffered_count ctx' _ Hc') as Hr'.
  assert (Hq : (length (M ++ c) / 64 = length M / 64 + (buffered ctx + len) / 64)%nat).
  { rewrite length_app, Hi, Hr. divmod_lia. }
  assert (Hd : drop (64 * (length M / 64)) (M ++ c) = pending ctx ++ c).
  { rewrite drop_app_le by divmod_lia. rewrite Hp. reflexivity. }
  split; [|assumption].
  split; [assumption|]. split; [|split; [assumption|]].
  - rewrite U3, Hq, absorb_add, Hd, Hs.
    rewrite (absorb_ext initial_state (M ++ c) M (length M / 64))
      by (rewrite take_app_le by divmod_lia; reflexivity).
    reflexivity.
  - unfold pending. rewrite Hr', Hq.
    replace (length (M ++ c) mod 64)%nat with ((buffered ctx + len) mod 64)%nat
      by (rewrite length_app, Hi, Hr; divmod_lia).
    rewrite U4, Nat.mul_add_distr_l, <- drop_drop, Hd. reflexivity.
Qed.

Lemma Update_chunks_represents (chunks : list (list byte)) (ctx : SHA256_CTX)
    (M : list byte) (tmp32 : list Z) :
  represents ctx M -> tmp_ok tmp32 ->
  represents (Update_chunks ctx chunks tmp32).1 (M ++ concat chunks)
  /\ tmp_ok (Update_chunks ctx chunks tmp32).2.
Proof.
  revert ctx M tmp32. induction chunks as [|c chunks IH]; intros ctx M tmp32 HR Htmp.
  - cbn [Update_chunks concat fst snd]. rewrite app_nil_r. split; assumption.
  - cbn [Update_chunks concat].
    destruct (Update_represents ctx M c (length c) tmp32 HR Htmp) as (U1 & U2); [lia|].
    destruct (_SHA256_Update ctx c (length c) tmp32) as [ctx1 tmp1].
    cbn [fst snd] in U1, U2. rewrite firstn_all in U1.
    rewrite app_assoc. apply IH; assumption.
Qed.

Lemma Final_represents (digest : list byte) (ctx : SHA256_CTX) (M : list byte)
    (tmp32 : list Z) :
  represents ctx M -> tmp_ok tmp32 ->
  (_SHA256_Final digest ctx tmp32).1.1 = sha256 M ++ drop 32 digest.
Proof.
  intros (Hok & Hs & Hc & Hp) Htmp.
  rewrite Final_spec by assumption. unfold sha256. rewrite Hs, Hc, Hp. reflexivity.
Qed.

Lemma SHA256_chunks_spec (chunks : list (list byte)) (digest : list byte)
    (ctx : SHA256_CTX) (tmp32 : list Z) :
  ctx_ok ctx -> tmp_ok tmp32 ->
  SHA256_chunks chunks digest ctx tmp32 = sha256 (concat chunks) ++ drop 32 digest.
Proof.
  intros Hok Htmp. unfold SHA256_chunks.
  destruct (Update_chunks_represents chunks (SHA256_Init ctx) [] tmp32) as (U1 & U2);
    [apply Init_represents; assumption | assumption |].
  destruct (Update_chunks (SHA256_Init ctx) chunks tmp32) as [ctx1 tmp1].
  cbn [fst snd app] in U1, U2.
  pose proof (Final_represents digest ctx1 _ tmp1 U1 U2) as F.
  destruct (_SHA256_Final digest ctx1 tmp1) as [[d c] t]. exact F.
Qed.

Lemma SHA256_Buf_spec (in_ : list byte) (len : nat) (digest : list byte)
    (ctx : SHA256_CTX) (tmp32 : list Z) :
  ctx_ok ctx -> tmp_ok tmp32 -> (len <= length in_)%nat ->
  SHA256_Buf in_ len digest ctx tmp32 = sha256 (take len in_) ++ drop 32 digest.
Proof.
  intros Hok Htmp Hlen. unfold SHA256_Buf.
  destruct (Update_represents (SHA256_Init ctx) [] in_ len tmp32) as (U1 & U2);
    [apply Init_represents; assumption | assumption | assumption |].
  destruct (_SHA256_Update (SHA256_Init ctx) in_ len tmp32) as [ctx1 tmp1].
  cbn [fst snd app] in U1, U2.
  pose proof (Final_represents digest ctx1 _ tmp1 U1 U2) as F.
  destruct (_SHA256_Final digest ctx1 tmp1) as [[d c] t]. exact F.
Qed.

(** ** The rounds read the schedule words in order *)






Lemma sha256_length (M : list byte) : length (sha256 M) = 32%nat.
Proof. apply digest_bytes_length. Qed.

Lemma take_32_digest (M rest : list byte) : take 32 (sha256 M ++ rest) = sha256 M.
Proof. apply take_app_length'. symmetry. apply sha256_length. Qed.

Lemma drop_32_digest (M rest : list byte) : drop 32 (sha256 M ++ rest) = rest.
Proof. apply drop_app_length'. symmetry. apply sha256_length. Qed.

(** One pass [SHA256_Init; _SHA256_Update; _SHA256_Final], with what it
    leaves in the context and in the scratch area. *)
Lemma hash_pass (in_ : list byte) (len : nat) (digest : list byte)
    (ctx : SHA256_CTX) (tmp32 : list Z) :
  ctx_ok ctx -> tmp_ok tmp32 -> (len <= length in_)%nat ->
  exists ctx' tmp32',
    (let '(ctx1, tmp1) := _SHA256_Update (SHA256_Init ctx) in_ len tmp32 in
     _SHA256_Final digest ctx1 tmp1)
    = (sha256 (take len in_) ++ drop 32 digest, ctx', tmp32')
    /\ ctx_ok ctx' /\ tmp_ok tmp32'.
Proof.
  intros Hok Htmp Hlen.
  destruct (Update_represents (SHA256_Init ctx) [] in_ len tmp32) as (U1 & U2);
    [apply Init_represents; assumption | assumption | assumption |].
  destruct (_SHA256_Update (SHA256_Init ctx) in_ len tmp32) as [ctx1 tmp1].
  cbn [fst snd app] in U1, U2.
  pose proof (Final_represents digest ctx1 _ tmp1 U1 U2) as F.
  destruct U1 as (Hok1 & _).
  destruct (Pad_spec ctx1 tmp1 Hok1 U2) as (_ & _ & _ & P1 & P2).
  unfold _SHA256_Final in *.
  destruct (SHA256_Pad ctx1 tmp1) as [ctx2 tmp2]. cbn [fst snd] in *.
  exists ctx2, tmp2. rewrite F. split; [reflexivity | split; assumption].
Qed.

Lemma SHA256d_Buf_spec (in_ : list byte) (len : nat) (digest : list byte)
    (ctx : SHA256_CTX) (tmp32 : list Z) :
  ctx_ok ctx -> tmp_ok tmp32 -> (len <= length in_)%nat ->
  (len <= length (SHA256_Buf in_ len digest ctx tmp32))%nat ->
  SHA256d_Buf in_ len digest ctx tmp32
  = sha256 (take len (SHA256_Buf in_ len digest ctx tmp32)) ++ drop 32 digest.
Proof.
  intros Hok Htmp Hlen. rewrite SHA256_Buf_spec by assumption. intros Hlen2.
  unfold SHA256d_Buf.
  destruct (hash_pass in_ len digest ctx tmp32 Hok Htmp Hlen) as (ctx1 & tmp1 & E1 & Hok1 & Htmp1).
  destruct (_SHA256_Update (SHA256_Init ctx) in_ len tmp32) as [c t].
  rewrite E1.
  destruct (hash_pass (sha256 (take len in_) ++ drop 32 digest) len
              (sha256 (take len in_) ++ drop 32 digest) ctx1 tmp1 Hok1 Htmp1 Hlen2)
    as (ctx2 & tmp2 & E2 & _).
  destruct (_SHA256_Update (SHA256_Init ctx1) _ len tmp1) as [c' t'].
  rewrite E2, drop_32_digest. reflexivity.
Qed.

Lemma sha256_empty : sha256 [] = digest_empty.
Proof. vm_compute. reflexivity. Qed.

Lemma sha256_abc : sha256 abc = digest_abc.
Proof. vm_compute. reflexivity. Qed.

Lemma u8_to_u8 (x : Z) : u8 (to_u8 x) = (x mod 256)%Z.
Proof.
  unfold u8, to_u8.
  assert (0 <= x mod 256 < 256)%Z as Hx by (apply Z.mod_pos_bound; lia).
  destruct (Byte.of_N (Z.to_N (x mod 256))) as [b|] eqn:E.
  - apply Byte.to_of_N in E. rewrite E. apply Z2N.id. lia.
  - apply Byte.of_N_None_iff in E. lia.
Qed.

Lemma byte_split (c k k' : Z) :
  (0 <= k)%Z -> (k' = k + 8)%Z ->
  (c mod 2 ^ k' = (c / 2 ^ k) mod 256 * 2 ^ k + c mod 2 ^ k)%Z.
Proof.
  intros Hk ->. rewrite Z.pow_add_r by lia. change (2 ^ 8)%Z with 256%Z.
  assert (0 < 2 ^ k)%Z by (apply Z.pow_pos_nonneg; lia).
  rewrite Z.rem_mul_r by lia. ring.
Qed.

(** The eight bytes that [be64enc] writes denote the 64-bit value. *)
Lemma be64enc_value (c : Z) : be_value (be64enc [] c) = (c mod 2 ^ 64)%Z.
Proof.
  unfold be_value, be64enc. cbn [fold_left drop skipn]. rewrite !u8_to_u8.
  change 255%Z with (Z.ones 8). rewrite !Z.land_ones, !Z.shiftr_div_pow2 by lia.
  change (2 ^ 8)%Z with 256%Z. rewrite !Z.mod_mod by lia.
  rewrite (byte_split c 56 64), (byte_split c 48 56), (byte_split c 40 48),
    (byte_split c 32 40), (byte_split c 24 32), (byte_split c 16 24),
    (byte_split c 8 16) by lia.
  change (2 ^ 8)%Z with 256%Z. ring.
Qed.

Lemma sha256_digest_empty : sha256 digest_empty = digest_of_digest_empty.
Proof. vm_compute. reflexivity. Qed.

Lemma SHA256_Buf_empty (in_ digest : list byte) (ctx : SHA256_CTX) (tmp32 : list Z) :
  ctx_ok ctx -> tmp_ok tmp32 ->
  SHA256_Buf in_ 0 digest ctx tmp32 = digest_empty ++ drop 32 digest.
Proof.
  intros Hok Htmp. rewrite SHA256_Buf_spec by (assumption || lia).
  rewrite take_0, sha256_empty. reflexivity.
Qed.

(** ** The properties of the specification *)

(** C1. Streaming equivalence: for every byte sequence [M] and every way
    of cutting it into chunks, [SHA256_Init], one [_SHA256_Update] per
    chunk in order and [_SHA256_Final] write the same digest as
    [SHA256_Buf] on [M] in one call, whatever the contexts, the scratch
    areas and the digest buffers of the two runs held before. *)
Theorem C1_streaming_equivalence (M : list byte) (chunks : list (list byte))
    (digest digest' : list byte) (ctx ctx' : SHA256_CTX) (tmp32 tmp32' : list Z) :
  concat chunks = M ->
  ctx_ok ctx -> tmp_ok tmp32 -> ctx_ok ctx' -> tmp_ok tmp32' ->
  take 32 (SHA256_chunks chunks digest ctx tmp32)
  = take 32 (SHA256_Buf M (length M) digest' ctx' tmp32')
  /\ SHA256_chunks chunks digest ctx tmp32
     = SHA256_Buf M (length M) digest ctx' tmp32'.
Proof.
  intros HM Hok Htmp Hok' Htmp'.
  rewrite SHA256_chunks_spec by assumption.
  rewrite !SHA256_Buf_spec by (assumption || lia).
  rewrite HM, firstn_all, !take_32_digest. split; reflexivity.
Qed.

Lemma C1_witness :
  concat [[x61; x62]; []; [x63]] = abc
  /\ ctx_ok zero_ctx /\ tmp_ok zero_tmp32
  /\ (take 32 (SHA256_chunks [[x61; x62]; []; [x63]] zero_digest zero_ctx zero_tmp32)
      = take 32 (SHA256_Buf abc (length abc) zero_digest zero_ctx zero_tmp32)
      /\ SHA256_chunks [[x61; x62]; []; [x63]] zero_digest zero_ctx zero_tmp32
         = SHA256_Buf abc (length abc) zero_digest zero_ctx zero_tmp32).
Proof.
  split; [reflexivity|]. split; [split; reflexivity|]. split; [reflexivity|].
  apply (C1_streaming_equivalence abc [[x61; x62]; []; [x63]] zero_digest
           zero_digest zero_ctx zero_ctx zero_tmp32 zero_tmp32);
    [reflexivity | split; reflexivity | reflexivity | split; reflexivity | reflexivity].
Defined.

(** C2. Known answers: whatever the locals and the digest buffer hold at
    entry, [SHA256_Buf] writes
    e3b0c44298fc1c149afbf4c8996fb92427ae41e4649b934ca495991b7852b855 for
    the empty input and
    ba7816bf8f01cfea414140de5dae2223b00361a396177a9cb410ff61f20015ad for
    the three bytes "abc" into the first 32 bytes at [digest], and leaves
    the bytes after them alone. *)
Theorem C2_known_answers (in_ digest : list byte) (ctx : SHA256_CTX)
    (tmp32 : list Z) :
  ctx_ok ctx -> tmp_ok tmp32 ->
  SHA256_Buf in_ 0 digest ctx tmp32 = digest_empty ++ drop 32 digest
  /\ SHA256_Buf abc 3 digest ctx tmp32 = digest_abc ++ drop 32 digest.
Proof.
  intros Hok Htmp. split.
  - rewrite SHA256_Buf_spec by (assumption || lia).
    rewrite take_0, sha256_empty. reflexivity.
  - rewrite SHA256_Buf_spec by (assumption || (cbn; lia)).
    change (take 3 abc) with abc. rewrite sha256_abc. reflexivity.
Qed.

Lemma C2_witness :
  ctx_ok zero_ctx /\ tmp_ok zero_tmp32
  /\ (SHA256_Buf [] 0 zero_digest zero_ctx zero_tmp32
      = digest_empty ++ drop 32 zero_digest
      /\ SHA256_Buf abc 3 zero_digest zero_ctx zero_tmp32
         = digest_abc ++ drop 32 zero_digest).
Proof.
  split; [split; reflexivity|]. split; [reflexivity|].
  apply (C2_known_answers [] zero_digest zero_ctx zero_tmp32);
    [split; reflexivity | reflexivity].
Defined.

(** C4, the statement as the claim words it fails on a message of 63
    bytes: 63 bytes are then buffered, and [SHA256_Pad] is not a single
    compression of any block; it runs the compression function twice. *)
Lemma C4_counterexample_63_bytes :
  buffered ctx_63 = 63%nat
  /\ ~ (exists B, SHA256_Pad ctx_63 zero_tmp32 = Pad_once ctx_63 zero_tmp32 B).
Proof.
  split; [reflexivity|]. intros [B H].
  assert (HB : buf (SHA256_Pad ctx_63 zero_tmp32).1 = B).
  { rewrite H. unfold Pad_once.
    destruct (Transform_tmp32 (state ctx_63) B zero_tmp32). reflexivity. }
  assert (Hs : state (SHA256_Pad ctx_63 zero_tmp32).1
               = (Transform_tmp32 (state ctx_63) B zero_tmp32).1).
  { rewrite H. unfold Pad_once.
    destruct (Transform_tmp32 (state ctx_63) B zero_tmp32). reflexivity. }
  subst B. vm_compute in Hs. discriminate Hs.
Qed.

(** C4, amended. For every context with r = (count / 8) mod 64 buffered
    bytes, [SHA256_Pad] appends 0x80 and then zeros, writes the bit count
    at entry as a big-endian 64-bit integer into the last 8 bytes of the
    final block, and runs the compression function once when r < 56 and
    twice when r >= 56; so a message of 55 bytes takes the path with one
    compression, and messages of 56 and of 63 bytes take the path with
    two. *)
Theorem C4_padding (ctx : SHA256_CTX) (tmp32 : list Z) :
  ctx_ok ctx ->
  buffered ctx = Z.to_nat ((count ctx / 8) mod 64)
  /\ ((buffered ctx < 56)%nat ->
        SHA256_Pad ctx tmp32
        = Pad_once ctx tmp32
            (pending ctx ++ x80 :: replicate (55 - buffered ctx) x00
               ++ be64enc [] (count ctx)))
  /\ ((56 <= buffered ctx)%nat ->
        SHA256_Pad ctx tmp32
        = Pad_twice ctx tmp32
            (pending ctx ++ x80 :: replicate (63 - buffered ctx) x00)
            (replicate 56 x00 ++ be64enc [] (count ctx)))
  /\ length (be64enc [] (count ctx)) = 8%nat
  /\ be_value (be64enc [] (count ctx)) = (count ctx mod 2 ^ 64)%Z
  /\ (forall (M : list byte) (ctx0 : SHA256_CTX) (tmp0 : list Z),
        ctx_ok ctx0 -> tmp_ok tmp0 ->
        ctx = (_SHA256_Update (SHA256_Init ctx0) M (length M) tmp0).1 ->
        (length M = 55%nat -> (buffered ctx < 56)%nat)
        /\ (length M = 56%nat \/ length M = 63%nat -> (56 <= buffered ctx)%nat)).
Proof.
  intros Hok. destruct (Pad_cases ctx tmp32 Hok) as [H1 H2].
  split; [apply buffered_eq|]. split; [exact H1|]. split; [exact H2|].
  split; [reflexivity|]. split; [apply be64enc_value|].
  intros M ctx0 tmp0 Hok0 Htmp0 ->.
  destruct (Update_represents (SHA256_Init ctx0) [] M (length M) tmp0) as (U & _);
    [apply Init_represents; assumption | assumption | lia |].
  cbn [app] in U. rewrite firstn_all in U.
  rewrite (represents_buffered _ _ U).
  split; [intros -> | intros [-> | ->]]; vm_compute; lia.
Qed.

Lemma C4_witness :
  ctx_ok ctx_63
  /\ (56 <= buffered ctx_63)%nat
  /\ SHA256_Pad ctx_63 zero_tmp32
     = Pad_twice ctx_63 zero_tmp32
         (pending ctx_63 ++ x80 :: replicate (63 - buffered ctx_63) x00)
         (replicate 56 x00 ++ be64enc [] (count ctx_63)).
Proof.
  split; [split; reflexivity|]. split; [vm_compute; lia|].
  apply (C4_padding ctx_63 zero_tmp32); [split; reflexivity | vm_compute; lia].
Defined.

(** C5. Round-function refinement: for every 8-word state and every block,
    whatever the scratch arrays hold, the state that [SHA256_Transform]
    leaves is the one of the specification: the 64 rounds
    T1 = h + Sigma1(e) + Ch(e,f,g) + K[i] + w[i] with the rotation of
    a .. h, with Ch(x,y,z) = (x AND y) XOR (NOT x AND z) and
    Maj(x,y,z) = (x AND y) OR (x AND z) OR (y AND z), followed by the
    element-wise addition modulo 2^32 into the original state; and the
    code's Ch and Maj are these two functions. *)
Theorem C5_round_function_refinement (st : list Z) (block : list byte)
    (W S8 : list Z) :
  length st = 8%nat -> (64 <= length W)%nat ->
  (SHA256_Transform st block W S8).1.1 = Spec.compress st block
  /\ (forall x y z, Ch x y z = Spec.Ch x y z)
  /\ (forall x y z, Maj x y z = Spec.Maj x y z).
Proof.
  intros Hst HW. split; [|split].
  - apply Transform_spec; assumption.
  - apply Ch_spec.
  - apply Maj_spec.
Qed.

Lemma C5_witness :
  length initial_state = 8%nat /\ (64 <= length zero_tmp32)%nat
  /\ ((SHA256_Transform initial_state (replicate 64 x61) zero_tmp32 zero_tmp32).1.1
      = Spec.compress initial_state (replicate 64 x61)
      /\ (forall x y z, Ch x y z = Spec.Ch x y z)
      /\ (forall x y z, Maj x y z = Spec.Maj x y z)).
Proof.
  split; [reflexivity|]. split; [vm_compute; lia|].
  apply (C5_round_function_refinement initial_state (replicate 64 x61)
           zero_tmp32 zero_tmp32); [reflexivity | vm_compute; lia].
Defined.



(** C7. Context invariant: after [SHA256_Init] and any finite sequence of
    [_SHA256_Update] calls, the count is 8 times the number of bytes fed so
    far, reduced modulo 2^64 as the 64-bit field does, hence that number
    itself as long as it stays below 2^64 bits; the buffer holds
    (count / 8) mod 64 pending bytes, fewer than 64, and they are the bytes
    of the concatenated input past its last complete 64-byte block. *)
Theorem C7_context_invariant (chunks : list (list byte)) (ctx : SHA256_CTX)
    (tmp32 : list Z) :
  ctx_ok ctx -> tmp_ok tmp32 ->
  ((8 * Z.of_nat (length (concat chunks)) < 2 ^ 64)%Z ->
     count (Update_chunks (SHA256_Init ctx) chunks tmp32).1
     = (8 * Z.of_nat (length (concat chunks)))%Z)
  /\ count (Update_chunks (SHA256_Init ctx) chunks tmp32).1
     = ((8 * Z.of_nat (length (concat chunks))) mod 2 ^ 64)%Z
  /\ buffered (Update_chunks (SHA256_Init ctx) chunks tmp32).1
     = Z.to_nat ((count (Update_chunks (SHA256_Init ctx) chunks tmp32).1 / 8) mod 64)
  /\ buffered (Update_chunks (SHA256_Init ctx) chunks tmp32).1
     = (length (concat chunks) mod 64)%nat
  /\ (buffered (Update_chunks (SHA256_Init ctx) chunks tmp32).1 < 64)%nat
  /\ length (buf (Update_chunks (SHA256_Init ctx) chunks tmp32).1) = 64%nat
  /\ length (pending (Update_chunks (SHA256_Init ctx) chunks tmp32).1)
     = buffered (Update_chunks (SHA256_Init ctx) chunks tmp32).1
  /\ pending (Update_chunks (SHA256_Init ctx) chunks tmp32).1
     = drop (64 * (length (concat chunks) / 64)) (concat chunks).
Proof.
  intros Hok Htmp.
  destruct (Update_chunks_represents chunks (SHA256_Init ctx) [] tmp32) as (HR & _);
    [apply Init_represents; assumption | assumption |].
  cbn [app] in HR.
  set (ctx' := (Update_chunks (SHA256_Init ctx) chunks tmp32).1) in *.
  pose proof (represents_buffered ctx' _ HR) as Hb.
  destruct HR as (Hok' & Hs & Hc & Hp).
  split; [intros Hsmall; rewrite Hc; apply Z.mod_small; lia|].
  split; [exact Hc|]. split; [apply buffered_eq|]. split; [exact Hb|].
  split; [apply buffered_lt|]. split; [apply Hok'|].
  split; [apply pending_length; assumption | exact Hp].
Qed.

Lemma C7_witness :
  ctx_ok zero_ctx /\ tmp_ok zero_tmp32
  /\ count (Update_chunks (SHA256_Init zero_ctx)
              [replicate 60 x61; []; replicate 70 x62] zero_tmp32).1 = 1040%Z
  /\ pending (Update_chunks (SHA256_Init zero_ctx)
                [replicate 60 x61; []; replicate 70 x62] zero_tmp32).1
     = [x62; x62].
Proof.
  split; [split; reflexivity|]. split; [reflexivity|].
  destruct (C7_context_invariant [replicate 60 x61; []; replicate 70 x62]
              zero_ctx zero_tmp32) as (H1 & _ & _ & _ & _ & _ & _ & H8);
    [split; reflexivity | reflexivity |].
  split.
  - rewrite H1; [reflexivity | vm_compute; reflexivity].
  - rewrite H8. reflexivity.
Defined.

(** C8. Empty update is a no-op: [_SHA256_Update] with length 0 returns
    the context as it was (state, count and buffer) and the scratch area
    as it was, so no compression ran; the memory at [in_] is not looked
    at. *)
Theorem C8_empty_update_noop (ctx : SHA256_CTX) (in_ : list byte) (tmp32 : list Z) :
  _SHA256_Update ctx in_ 0 tmp32 = (ctx, tmp32)
  /\ state (_SHA256_Update ctx in_ 0 tmp32).1 = state ctx
  /\ count (_SHA256_Update ctx in_ 0 tmp32).1 = count ctx
  /\ buf (_SHA256_Update ctx in_ 0 tmp32).1 = buf ctx
  /\ (_SHA256_Update ctx in_ 0 tmp32).2 = tmp32.
Proof.
  assert (E : _SHA256_Update ctx in_ 0 tmp32 = (ctx, tmp32)).
  { unfold _SHA256_Update. cbn [Nat.eqb]. reflexivity. }
  rewrite E. cbn [fst snd]. repeat split; reflexivity.
Qed.

(** C9. [SHA256_Pad], and so [_SHA256_Final], leave [ctx->count] as it
    was; the 64-bit length field in the last 8 bytes of the final block
    is the bit count at entry; and the digest is a function of the state,
    the count and the buffer at entry: neither the scratch area nor the
    old contents of the digest buffer enter it. *)
Theorem C9_pad_keeps_count (digest : list byte) (ctx : SHA256_CTX)
    (tmp32 : list Z) :
  ctx_ok ctx -> tmp_ok tmp32 ->
  count (SHA256_Pad ctx tmp32).1 = count ctx
  /\ count (_SHA256_Final digest ctx tmp32).1.2 = count ctx
  /\ drop 56 (buf (SHA256_Pad ctx tmp32).1) = be64enc [] (count ctx)
  /\ be_value (drop 56 (buf (SHA256_Pad ctx tmp32).1)) = (count ctx mod 2 ^ 64)%Z
  /\ (_SHA256_Final digest ctx tmp32).1.1
     = digest_bytes (pad_state (state ctx) (count ctx) (pending ctx))
       ++ drop 32 digest.
Proof.
  intros Hok Htmp.
  destruct (Pad_spec ctx tmp32 Hok Htmp) as (P1 & P2 & P3 & _).
  split; [exact P2|]. split.
  { unfold _SHA256_Final. destruct (SHA256_Pad ctx tmp32) as [c t]. exact P2. }
  split; [exact P3|]. split; [rewrite P3; apply be64enc_value|].
  apply Final_spec; assumption.
Qed.

Lemma C9_witness :
  ctx_ok ctx_63 /\ tmp_ok zero_tmp32
  /\ (count (SHA256_Pad ctx_63 zero_tmp32).1 = count ctx_63
      /\ count (_SHA256_Final zero_digest ctx_63 zero_tmp32).1.2 = count ctx_63
      /\ drop 56 (buf (SHA256_Pad ctx_63 zero_tmp32).1) = be64enc [] (count ctx_63)
      /\ be_value (drop 56 (buf (SHA256_Pad ctx_63 zero_tmp32).1))
         = (count ctx_63 mod 2 ^ 64)%Z
      /\ (_SHA256_Final zero_digest ctx_63 zero_tmp32).1.1
         = digest_bytes (pad_state (state ctx_63) (count ctx_63) (pending ctx_63))
           ++ drop 32 zero_digest).
Proof.
  split; [split; reflexivity|]. split; [reflexivity|].
  apply (C9_pad_keeps_count zero_digest ctx_63 zero_tmp32);
    [split; reflexivity | reflexivity].
Defined.

(** C10. The double hash of the empty input: with [len = 0] the update of
    the second pass returns at once, so [SHA256d_Buf] writes the digest of
    the empty string, as [SHA256_Buf] does, and not Hash(Hash(""));
    nothing is read at [in_] nor at [digest], whatever memory there is
    behind them. *)
Theorem C10_double_hash_empty (in_ digest dg : list byte)
    (ctx ctx' : SHA256_CTX) (tmp32 tmp32' : list Z) :
  ctx_ok ctx -> tmp_ok tmp32 -> ctx_ok ctx' -> tmp_ok tmp32' ->
  SHA256d_Buf in_ 0 digest ctx tmp32 = SHA256_Buf in_ 0 digest ctx tmp32
  /\ SHA256d_Buf in_ 0 digest ctx tmp32 = digest_empty ++ drop 32 digest
  /\ take 32 (SHA256d_Buf in_ 0 digest ctx tmp32)
     <> take 32 (SHA256_Buf digest_empty 32 dg ctx' tmp32')
  /\ (forall (c : SHA256_CTX) (p : list byte) (t : list Z),
        _SHA256_Update c p 0 t = (c, t)).
Proof.
  intros Hok Htmp Hok' Htmp'.
  assert (E : SHA256d_Buf in_ 0 digest ctx tmp32 = digest_empty ++ drop 32 digest).
  { rewrite SHA256d_Buf_spec by (assumption || lia).
    rewrite take_0, sha256_empty. reflexivity. }
  split; [|split; [exact E|split]].
  - rewrite E. symmetry. apply SHA256_Buf_empty; assumption.
  - rewrite E. rewrite SHA256_Buf_spec by (assumption || (cbn; lia)).
    change (take 32 digest_empty) with digest_empty.
    rewrite take_32_digest, sha256_digest_empty.
    rewrite take_app_length' by reflexivity. discriminate.
  - intros c p t. reflexivity.
Qed.

Lemma C10_witness :
  ctx_ok zero_ctx /\ tmp_ok zero_tmp32
  /\ SHA256d_Buf [] 0 zero_digest zero_ctx zero_tmp32 = digest_empty.
Proof.
  split; [split; reflexivity|]. split; [reflexivity|].
  destruct (C10_double_hash_empty [] zero_digest zero_digest zero_ctx zero_ctx
              zero_tmp32 zero_tmp32) as (_ & H & _);
    [split; reflexivity | reflexivity | split; reflexivity | reflexivity |].
  rewrite H. reflexivity.
Defined.


(** ** Further properties of the code *)

(** *** The big-endian vector codec *)

Lemma be32enc_app (p : list byte) (x : Z) : be32enc p x = be32enc [] x ++ drop 4 p.
Proof. reflexivity. Qed.

Lemma be32enc_length (x : Z) : length (be32enc [] x) = 4%nat.
Proof. reflexivity. Qed.

(** The two words that one pass of the encoding loop writes. *)
Lemma be32enc_pair (d : list byte) (x y : Z) :
  at_ 4 (fun p => be32enc p y) (be32enc d x)
  = be32enc [] x ++ be32enc [] y ++ drop 8 d.
Proof.
  unfold at_. rewrite (be32enc_app d x).
  rewrite take_app_length' by reflexivity.
  rewrite drop_app_length' by reflexivity.
  rewrite (be32enc_app (drop 4 d) y), drop_drop. reflexivity.
Qed.

Lemma be32enc_vect_1 (d : list byte) (src : list Z) :
  be32enc_vect d src 1
  = be32enc [] (src !!! 0%nat) ++ be32enc [] (src !!! 1%nat) ++ drop 8 d.
Proof. cbn [be32enc_vect]. apply be32enc_pair. Qed.

Lemma be32enc_vect_SS (d : list byte) (src : list Z) (n : nat) :
  be32enc_vect d src (S (S n))
  = (be32enc [] (src !!! 0%nat) ++ be32enc [] (src !!! 1%nat))
    ++ be32enc_vect (drop 8 d) (drop 2 src) (S n).
Proof.
  change (be32enc_vect d src (S (S n)))
    with (take 8 (at_ 4 (fun p => be32enc p (src !!! 1%nat)) (be32enc d (src !!! 0%nat)))
          ++ be32enc_vect
               (drop 8 (at_ 4 (fun p => be32enc p (src !!! 1%nat)) (be32enc d (src !!! 0%nat))))
               (drop 2 src) (S n)).
  rewrite be32enc_pair, app_assoc.
  rewrite take_app_length', drop_app_length' by reflexivity. reflexivity.
Qed.

Lemma be32dec_vect_1 (dst : list Z) (src : list byte) :
  (2 <= length dst)%nat ->
  be32dec_vect dst src 1 = be32dec src :: be32dec (drop 4 src) :: drop 2 dst.
Proof.
  intros H. destruct dst as [|a [|b dst]]; simpl in H; try lia. reflexivity.
Qed.

Lemma be32dec_vect_SS (dst : list Z) (src : list byte) (n : nat) :
  (2 <= length dst)%nat ->
  be32dec_vect dst src (S (S n))
  = be32dec src :: be32dec (drop 4 src)
    :: be32dec_vect (drop 2 dst) (drop 8 src) (S n).
Proof.
  intros H. destruct dst as [|a [|b dst]]; simpl in H; try lia. reflexivity.
Qed.

Lemma byte_u8_range (b : byte) : (0 <= u8 b < 256)%Z.
Proof. unfold u8. pose proof (Byte.to_N_bounded b). lia. Qed.

Lemma be32dec_range (p : list byte) : (0 <= be32dec p < 2 ^ 32)%Z.
Proof.
  unfold be32dec. rewrite !Z.shiftl_mul_pow2 by lia.
  pose proof (byte_u8_range (p !!! 0%nat)). pose proof (byte_u8_range (p !!! 1%nat)).
  pose proof (byte_u8_range (p !!! 2%nat)). pose proof (byte_u8_range (p !!! 3%nat)).
  lia.
Qed.

(** Decoding the four bytes of an encoded word gives the word back, as a
    32-bit value. *)
Lemma be32dec_be32enc (x : Z) (rest : list byte) :
  be32dec (be32enc [] x ++ rest) = (x mod 2 ^ 32)%Z.
Proof.
  unfold be32dec, be32enc. cbn [app lookup_total list_lookup_total].
  rewrite !u8_to_u8. change 255%Z with (Z.ones 8).
  rewrite !Z.land_ones, !Z.shiftr_div_pow2, !Z.shiftl_mul_pow2 by lia.
  change (2 ^ 8)%Z with 256%Z. rewrite !Z.mod_mod by lia.
  rewrite (byte_split x 24 32), (byte_split x 16 24), (byte_split x 8 16) by lia.
  change (2 ^ 8)%Z with 256%Z. ring.
Qed.

Lemma be32enc_vect_frame_S (n : nat) (d : list byte) (src : list Z) :
  be32enc_vect d src (S n) = be32enc_vect [] src (S n) ++ drop (8 * S n) d
  /\ length (be32enc_vect [] src (S n)) = (8 * S n)%nat.
Proof.
  revert d src. induction n as [|n IH]; intros d src.
  - rewrite !be32enc_vect_1. rewrite drop_nil, app_nil_r, <- app_assoc.
    split; [reflexivity|]. rewrite length_app, !be32enc_length. reflexivity.
  - rewrite !be32enc_vect_SS. rewrite drop_nil.
    destruct (IH (drop 8 d) (drop 2 src)) as (E & _).
    destruct (IH [] (drop 2 src)) as (_ & L).
    rewrite E, drop_drop, app_assoc.
    replace (8 + 8 * S n)%nat with (8 * S (S n))%nat by lia.
    split; [reflexivity|]. rewrite !length_app, !be32enc_length, L. lia.
Qed.

Lemma be32dec_vect_closed_S (n : nat) (dst : list Z) (src : list byte) :
  (2 * S n <= length dst)%nat ->
  be32dec_vect dst src (S n)
  = map (fun j => be32dec (drop (4 * j) src)) (seq 0 (2 * S n))
    ++ drop (2 * S n) dst.
Proof.
  revert dst src. induction n as [|n IH]; intros dst src H.
  - rewrite be32dec_vect_1 by lia. reflexivity.
  - rewrite be32dec_vect_SS by lia.
    rewrite IH by (rewrite length_drop; lia).
    replace (2 * S (S n))%nat with (S (S (2 * S n))) by lia.
    cbn [seq map app]. rewrite drop_0. f_equal. f_equal.
    rewrite drop_drop. replace (2 + 2 * S n)%nat with (S (S (2 * S n))) by lia.
    f_equal.
    change (seq 2 (2 * S n)) with (seq (2 + 0) (2 * S n)).
    rewrite <- (fmap_add_seq 2 0 (2 * S n)).
    change (Nat.add 2 <$> seq 0 (2 * S n)) with (map (Nat.add 2) (seq 0 (2 * S n))).
    rewrite map_map.
    apply map_ext. intros j. rewrite drop_drop. f_equal. f_equal. lia.
Qed.

Lemma be32_round_trip_S (n : nat) (dst : list Z) (d : list byte) (src : list Z) :
  (2 * S n <= length dst)%nat -> (2 * S n <= length src)%nat ->
  be32dec_vect dst (be32enc_vect d src (S n)) (S n)
  = map (fun w => (w mod 2 ^ 32)%Z) (take (2 * S n) src) ++ drop (2 * S n) dst.
Proof.
  revert dst d src. induction n as [|n IH]; intros dst d src Hd Hs;
    destruct src as [|s0 [|s1 src]]; simpl in Hs; try lia.
  - rewrite be32enc_vect_1, be32dec_vect_1 by lia.
    cbn [lookup_total list_lookup_total].
    rewrite drop_app_length' by reflexivity.
    rewrite !be32dec_be32enc. reflexivity.
  - rewrite be32enc_vect_SS, be32dec_vect_SS by lia.
    cbn [lookup_total list_lookup_total].
    rewrite <- (app_assoc (be32enc [] s0)).
    rewrite be32dec_be32enc.
    rewrite (drop_app_length' (be32enc [] s0)) by reflexivity.
    rewrite be32dec_be32enc.
    rewrite app_assoc, (drop_app_length' (be32enc [] s0 ++ be32enc [] s1)) by reflexivity.
    change (drop 2 (s0 :: s1 :: src)) with src.
    rewrite IH by (rewrite ?length_drop; simpl; lia).
    replace (2 * S (S n))%nat with (S (S (2 * S n))) by lia.
    cbn [take firstn map app]. rewrite drop_drop.
    replace (2 + 2 * S n)%nat with (S (S (2 * S n))) by lia. reflexivity.
Qed.

(** X1. Round trip of the vector codec: encoding [2 * len] words with
    [be32enc_vect] and decoding the bytes with [be32dec_vect] gives the
    words back (as 32-bit values) in the first [2 * len] cells of the
    destination and leaves the cells after them alone. *)
Theorem X1_be32_vect_round_trip (len : nat) (dst : list Z) (d : list byte)
    (src : list Z) :
  (1 <= len)%nat -> (2 * len <= length dst)%nat -> (2 * len <= length src)%nat ->
  be32dec_vect dst (be32enc_vect d src len) len
  = map (fun w => (w mod 2 ^ 32)%Z) (take (2 * len) src) ++ drop (2 * len) dst.
Proof.
  intros Hl Hd Hs. destruct len as [|n]; [lia|].
  apply be32_round_trip_S; assumption.
Qed.

Lemma X1_witness :
  (1 <= 4)%nat /\ (2 * 4 <= length (replicate 9 7%Z))%nat
  /\ (2 * 4 <= length initial_state)%nat
  /\ be32dec_vect (replicate 9 7%Z) (be32enc_vect zero_digest initial_state 4) 4
     = map (fun w => (w mod 2 ^ 32)%Z) (take (2 * 4) initial_state)
       ++ drop (2 * 4) (replicate 9 7%Z).
Proof.
  split; [lia|]. split; [vm_compute; lia|]. split; [vm_compute; lia|].
  apply (X1_be32_vect_round_trip 4 (replicate 9 7%Z) zero_digest initial_state);
    [lia | vm_compute; lia | vm_compute; lia].
Defined.

(** X2. [be32enc_vect] writes exactly [8 * len] bytes: they do not depend
    on what the destination held, and the bytes of the destination after
    them are left as they were. *)
Theorem X2_be32enc_vect_frame (len : nat) (d : list byte) (src : list Z) :
  (1 <= len)%nat ->
  be32enc_vect d src len = be32enc_vect [] src len ++ drop (8 * len) d
  /\ length (be32enc_vect [] src len) = (8 * len)%nat.
Proof.
  intros Hl. destruct len as [|n]; [lia|]. apply be32enc_vect_frame_S.
Qed.

Lemma X2_witness :
  (1 <= 4)%nat
  /\ (be32enc_vect (replicate 40 xff) initial_state 4
      = be32enc_vect [] initial_state 4 ++ drop (8 * 4) (replicate 40 xff)
      /\ length (be32enc_vect [] initial_state 4) = (8 * 4)%nat).
Proof.
  split; [lia|].
  apply (X2_be32enc_vect_frame 4 (replicate 40 xff) initial_state). lia.
Defined.

(** X3. [be32dec_vect] writes exactly [2 * len] words: word [j] is the
    big-endian value of the four bytes at offset [4 * j], a value below
    2^32, and the cells of the destination after them are left as they
    were. *)
Theorem X3_be32dec_vect_words (len : nat) (dst : list Z) (src : list byte) :
  (1 <= len)%nat -> (2 * len <= length dst)%nat ->
  be32dec_vect dst src len
  = map (fun j => be32dec (drop (4 * j) src)) (seq 0 (2 * len))
    ++ drop (2 * len) dst
  /\ length (be32dec_vect dst src len) = length dst
  /\ Forall (fun w => (0 <= w < 2 ^ 32)%Z) (take (2 * len) (be32dec_vect dst src len)).
Proof.
  intros Hl Hd. destruct len as [|n]; [lia|].
  rewrite be32dec_vect_closed_S by assumption.
  split; [reflexivity|]. split.
  - rewrite length_app, length_map, length_seq, length_drop. lia.
  - rewrite take_app_length' by (rewrite length_map, length_seq; reflexivity).
    apply Forall_forall. intros w Hw. apply list_elem_of_In in Hw.
    apply in_map_iff in Hw. destruct Hw as (j & <- & _). apply be32dec_range.
Qed.

Lemma X3_witness :
  (1 <= 8)%nat /\ (2 * 8 <= length zero_tmp32)%nat
  /\ (be32dec_vect zero_tmp32 (replicate 64 x61) 8
      = map (fun j => be32dec (drop (4 * j) (replicate 64 x61))) (seq 0 (2 * 8))
        ++ drop (2 * 8) zero_tmp32
      /\ length (be32dec_vect zero_tmp32 (replicate 64 x61) 8) = length zero_tmp32
      /\ Forall (fun w => (0 <= w < 2 ^ 32)%Z)
           (take (2 * 8) (be32dec_vect zero_tmp32 (replicate 64 x61) 8))).
Proof.
  split; [lia|]. split; [vm_compute; lia|].
  apply (X3_be32dec_vect_words 8 zero_tmp32 (replicate 64 x61)); [lia | vm_compute; lia].
Defined.

(** *** The compression function *)

Lemma list_eq_lookup_total {A} `{Inhabited A} (l1 l2 : list A) (n : nat) :
  length l1 = n -> length l2 = n ->
  (forall i, (i < n)%nat -> l1 !!! i = l2 !!! i) -> l1 = l2.
Proof.
  intros H1 H2 E. apply (list_eq_same_length l1 l2 n); [assumption..|].
  intros i x y Hi Hx Hy.
  apply list_lookup_total_correct in Hx, Hy. rewrite <- Hx, <- Hy. apply E. exact Hi.
Qed.

Lemma MSCH_drop_64 (W : list Z) (i n : nat) :
  (i + n + 16 <= 64)%nat ->
  drop 64 (fold_left (fun W j => MSCH W j i) (seq 0 n) W) = drop 64 W.
Proof.
  induction n as [|n IH]; intros Hn; [reflexivity|].
  rewrite seq_S, fold_left_app. cbn [fold_left]. unfold MSCH at 1.
  rewrite drop_insert_lt by lia. apply IH. lia.
Qed.

Lemma W_at_pass_drop_64 (W0 : list Z) (k : nat) :
  (k <= 3)%nat -> drop 64 (W_at_pass W0 k) = drop 64 W0.
Proof.
  induction k as [|k IH]; intros Hk; [reflexivity|].
  cbn [W_at_pass]. rewrite MSCH_x16_fold, MSCH_drop_64 by lia. apply IH. lia.
Qed.

(** What [SHA256_Transform] leaves in its three arrays. *)
Lemma Transform_arrays (st : list Z) (block : list byte) (W S8 : list Z) :
  length st = 8%nat -> (64 <= length W)%nat -> (8 <= length S8)%nat ->
  take 64 (SHA256_Transform st block W S8).1.2 = Spec.schedule block
  /\ drop 64 (SHA256_Transform st block W S8).1.2 = drop 64 W
  /\ length (SHA256_Transform st block W S8).2 = length S8
  /\ drop 8 (SHA256_Transform st block W S8).2 = drop 8 S8
  /\ view (SHA256_Transform st block W S8).2 0
     = Spec.rounds (Spec.schedule block) (Spec.regs_of st).
Proof.
  intros Hst HW HS. unfold SHA256_Transform.
  assert (HS' : (8 <= length (memcpy S8 st 8))%nat).
  { unfold memcpy. rewrite length_app, length_take. lia. }
  destruct (mix_spec (memcpy S8 st 8) W block HS' HW) as (Mv & Ml & Md & MW).
  destruct (mix 4 (memcpy S8 st 8) (be32dec_vect W block 8) 0) as [S' W'].
  cbn [fst snd] in *. subst W'.
  destruct (W_at_pass_schedule W block 3 HW) as (Hl & Ha); [lia|].
  assert (Hv : view (memcpy S8 st 8) 0 = Spec.regs_of st).
  { unfold memcpy. rewrite firstn_all2 by lia.
    unfold view, Spec.regs_of. cbn [Nat.sub Nat.modulo Nat.divmod fst snd].
    rewrite !lookup_total_app_l by lia. reflexivity. }
  split; [|split; [|split; [|split]]].
  - apply (list_eq_lookup_total _ _ 64).
    + rewrite length_take. lia.
    + apply schedule_length.
    + intros i Hi. rewrite lookup_total_take_lt by lia. apply Ha. lia.
  - rewrite W_at_pass_drop_64 by lia.
    rewrite be32dec_vect_decode16 by lia.
    rewrite drop_app_ge by (rewrite decode16_length; lia).
    rewrite decode16_length, drop_drop. reflexivity.
  - rewrite Ml. unfold memcpy. rewrite length_app, length_take, length_drop. lia.
  - rewrite Md. unfold memcpy.
    rewrite drop_app_ge by (rewrite length_take; lia).
    rewrite length_take, drop_drop. f_equal. lia.
  - rewrite Mv, Hv. reflexivity.
Qed.

Lemma compress_range (st : list Z) (block : list byte) :
  Forall (fun w => (0 <= w < 2 ^ 32)%Z) (Spec.compress st block).
Proof.
  unfold Spec.compress. generalize (Spec.list_of (Spec.rounds (Spec.schedule block) (Spec.regs_of st))).
  generalize (take 8 st). intros l. induction l as [|x l IH]; intros k.
  - constructor.
  - destruct k as [|y k]; [constructor|]. cbn [zip_with]. constructor.
    + apply Z.mod_pos_bound. lia.
    + apply IH.
Qed.

(** X4. [SHA256_Transform] reads 64 bytes of the block and nothing of its
    scratch arrays: two calls on the same state whose blocks agree on their
    first 64 bytes give the same new state, whatever follows the 64 bytes
    and whatever [W] and [S] held. *)
Theorem X4_Transform_reads_64_bytes (st : list Z) (b1 b2 : list byte)
    (W1 S1 W2 S2 : list Z) :
  length st = 8%nat -> (64 <= length W1)%nat -> (64 <= length W2)%nat ->
  take 64 b1 = take 64 b2 ->
  (SHA256_Transform st b1 W1 S1).1.1 = (SHA256_Transform st b2 W2 S2).1.1.
Proof.
  intros Hst H1 H2 Hb.
  destruct (Transform_spec st b1 W1 S1 Hst H1) as (E1 & _).
  destruct (Transform_spec st b2 W2 S2 Hst H2) as (E2 & _).
  rewrite E1, E2. apply compress_ext. exact Hb.
Qed.

Lemma X4_witness :
  length initial_state = 8%nat /\ (64 <= length zero_tmp32)%nat
  /\ (64 <= length (replicate 64 5%Z))%nat
  /\ take 64 (replicate 64 x61 ++ [x01; x02]) = take 64 (replicate 64 x61)
  /\ (SHA256_Transform initial_state (replicate 64 x61 ++ [x01; x02])
        zero_tmp32 zero_tmp32).1.1
     = (SHA256_Transform initial_state (replicate 64 x61)
          (replicate 64 5%Z) (replicate 8 9%Z)).1.1.
Proof.
  split; [reflexivity|]. split; [vm_compute; lia|]. split; [vm_compute; lia|].
  split; [reflexivity|].
  apply (X4_Transform_reads_64_bytes initial_state (replicate 64 x61 ++ [x01; x02])
           (replicate 64 x61) zero_tmp32 zero_tmp32 (replicate 64 5%Z) (replicate 8 9%Z));
    [reflexivity | vm_compute; lia | vm_compute; lia | reflexivity].
Defined.

(** X5. What [SHA256_Transform] writes: the new state has 8 words, each
    below 2^32; the first 64 words of [W] hold the message schedule of the
    block and the first 8 words of [S] the working variables after the 64
    rounds; the cells of [W] past the 64th and of [S] past the 8th are left
    as they were. *)
Theorem X5_Transform_writes (st : list Z) (block : list byte) (W S8 : list Z) :
  length st = 8%nat -> (64 <= length W)%nat -> (8 <= length S8)%nat ->
  length (SHA256_Transform st block W S8).1.1 = 8%nat
  /\ Forall (fun w => (0 <= w < 2 ^ 32)%Z) (SHA256_Transform st block W S8).1.1
  /\ take 64 (SHA256_Transform st block W S8).1.2 = Spec.schedule block
  /\ drop 64 (SHA256_Transform st block W S8).1.2 = drop 64 W
  /\ view (SHA256_Transform st block W S8).2 0
     = Spec.rounds (Spec.schedule block) (Spec.regs_of st)
  /\ length (SHA256_Transform st block W S8).2 = length S8
  /\ drop 8 (SHA256_Transform st block W S8).2 = drop 8 S8.
Proof.
  intros Hst HW HS.
  destruct (Transform_spec st block W S8 Hst HW) as (E & _).
  destruct (Transform_arrays st block W S8 Hst HW HS) as (A1 & A2 & A3 & A4 & A5).
  rewrite E.
  split; [apply compress_length; assumption|].
  split; [apply compress_range|].
  split; [exact A1|]. split; [exact A2|]. split; [exact A5|].
  split; [exact A3 | exact A4].
Qed.

Lemma X5_witness :
  length initial_state = 8%nat /\ (64 <= length zero_tmp32)%nat
  /\ (8 <= length (replicate 10 3%Z))%nat
  /\ drop 64 (SHA256_Transform initial_state (replicate 64 x61) zero_tmp32
                (replicate 10 3%Z)).1.2 = drop 64 zero_tmp32
  /\ drop 8 (SHA256_Transform initial_state (replicate 64 x61) zero_tmp32
               (replicate 10 3%Z)).2 = drop 8 (replicate 10 3%Z).
Proof.
  split; [reflexivity|]. split; [vm_compute; lia|]. split; [vm_compute; lia|].
  destruct (X5_Transform_writes initial_state (replicate 64 x61) zero_tmp32
              (replicate 10 3%Z)) as (_ & _ & _ & H4 & _ & _ & H7);
    [reflexivity | vm_compute; lia | vm_compute; lia |].
  split; [exact H4 | exact H7].
Defined.

(** *** [_SHA256_Update] on any context *)

Lemma Update_count (ctx : SHA256_CTX) (in_ : list byte) (len : nat) (tmp32 : list Z) :
  count (_SHA256_Update ctx in_ len tmp32).1
  = if (len =? 0)%nat then count ctx
    else ((count ctx + 8 * Z.of_nat len) mod 2 ^ 64)%Z.
Proof.
  unfold _SHA256_Update. destruct (len =? 0)%nat; [reflexivity|].
  cbn [state count buf].
  destruct (len <? 64 - buffered ctx)%nat; [apply count_add|].
  destruct (Transform_tmp32 _ _ _) as [st1 tmp1].
  destruct (Update_blocks _ _ _ _ _) as [[[st2 src2] len2] tmp2].
  apply count_add.
Qed.

Lemma Update_buffered (ctx : SHA256_CTX) (in_ : list byte) (len : nat) (tmp32 : list Z) :
  buffered (_SHA256_Update ctx in_ len tmp32).1 = ((buffered ctx + len) mod 64)%nat.
Proof.
  rewrite !buffered_eq, Update_count.
  destruct (len =? 0)%nat eqn:E.
  - apply Nat.eqb_eq in E. subst len. divmod_lia.
  - divmod_lia.
Qed.

(** X6. The fill level advances modulo 64: for every context and every
    input, after [_SHA256_Update] the number of buffered bytes is the old
    one plus [len], modulo 64, and the bit count is the old one plus
    [8 * len] modulo 2^64 (unchanged when [len] is 0). *)
Theorem X6_Update_fill_level (ctx : SHA256_CTX) (in_ : list byte) (len : nat)
    (tmp32 : list Z) :
  buffered (_SHA256_Update ctx in_ len tmp32).1 = ((buffered ctx + len) mod 64)%nat
  /\ count (_SHA256_Update ctx in_ len tmp32).1
     = (if (len =? 0)%nat then count ctx
        else ((count ctx + 8 * Z.of_nat len) mod 2 ^ 64)%Z)
  /\ (buffered (_SHA256_Update ctx in_ len tmp32).1 < 64)%nat.
Proof.
  split; [apply Update_buffered|]. split; [apply Update_count | apply buffered_lt].
Qed.

(** X7. A short update only buffers: when the input does not fill the
    block in progress, [_SHA256_Update] copies it behind the buffered
    bytes, leaves the rest of the buffer, the state and the scratch area
    untouched, and runs no compression. *)
Theorem X7_Update_short_input (ctx : SHA256_CTX) (in_ : list byte) (len : nat)
    (tmp32 : list Z) :
  (buffered ctx + len < 64)%nat ->
  _SHA256_Update ctx in_ len tmp32
  = (mkCTX (state ctx)
           (if (len =? 0)%nat then count ctx
            else ((count ctx + 8 * Z.of_nat len) mod 2 ^ 64)%Z)
           (take (buffered ctx) (buf ctx) ++ take len in_
              ++ drop (buffered ctx + len) (buf ctx)),
     tmp32).
Proof.
  intros H. unfold _SHA256_Update. destruct (len =? 0)%nat eqn:E.
  - apply Nat.eqb_eq in E. subst len.
    rewrite take_0, Nat.add_0_r. cbn [app]. rewrite take_drop.
    destruct ctx; reflexivity.
  - assert ((len <? 64 - buffered ctx)%nat = true) as -> by (apply Nat.ltb_lt; lia).
    cbn [state count buf]. unfold at_, memcpy.
    rewrite count_add, drop_drop. reflexivity.
Qed.

Lemma X7_witness :
  (buffered zero_ctx + 3 < 64)%nat
  /\ _SHA256_Update zero_ctx abc 3 zero_tmp32
     = (mkCTX (state zero_ctx)
              (if (3 =? 0)%nat then count zero_ctx
               else ((count zero_ctx + 8 * Z.of_nat 3) mod 2 ^ 64)%Z)
              (take (buffered zero_ctx) (buf zero_ctx) ++ take 3 abc
                 ++ drop (buffered zero_ctx + 3) (buf zero_ctx)),
        zero_tmp32).
Proof.
  split; [vm_compute; lia|].
  apply (X7_Update_short_input zero_ctx abc 3 zero_tmp32). vm_compute; lia.
Defined.

Lemma Update_rest (ctx : SHA256_CTX) (in_ : list byte)
    (len : nat) (tmp32 : list Z) :
  ctx_ok ctx -> tmp_ok tmp32 -> (len <= length in_)%nat ->
  state (_SHA256_Update ctx in_ len tmp32).1
  = absorb (state ctx) (pending ctx ++ take len in_) ((buffered ctx + len) / 64)
  /\ pending (_SHA256_Update ctx in_ len tmp32).1
     = drop (64 * ((buffered ctx + len) / 64)) (pending ctx ++ take len in_)
  /\ ctx_ok (_SHA256_Update ctx in_ len tmp32).1
  /\ tmp_ok (_SHA256_Update ctx in_ len tmp32).2.
Proof.
  intros Hok Htmp Hlen.
  destruct (Update_spec ctx in_ len tmp32 Hok Htmp Hlen) as (U1 & U2 & U3 & U4 & _).
  split; [exact U3|]. split; [|split; assumption].
  unfold pending at 1. rewrite Update_buffered. exact U4.
Qed.

(** X8. What [_SHA256_Update] computes on any context: with [r] bytes
    buffered, it runs the compression function over the first
    (r + len) / 64 blocks of the buffered bytes followed by the input, and
    leaves the (r + len) mod 64 bytes that remain as the buffered bytes;
    the arrays keep their sizes. *)
Theorem X8_Update_blocks_and_rest (ctx : SHA256_CTX) (in_ : list byte)
    (len : nat) (tmp32 : list Z) :
  ctx_ok ctx -> tmp_ok tmp32 -> (len <= length in_)%nat ->
  state (_SHA256_Update ctx in_ len tmp32).1
  = absorb (state ctx) (pending ctx ++ take len in_) ((buffered ctx + len) / 64)
  /\ pending (_SHA256_Update ctx in_ len tmp32).1
     = drop (64 * ((buffered ctx + len) / 64)) (pending ctx ++ take len in_)
  /\ ctx_ok (_SHA256_Update ctx in_ len tmp32).1
  /\ tmp_ok (_SHA256_Update ctx in_ len tmp32).2.
Proof.
  intros Hok Htmp Hlen. apply Update_rest; assumption.
Qed.

Lemma X8_witness :
  ctx_ok ctx_63 /\ tmp_ok zero_tmp32 /\ (3 <= length abc)%nat
  /\ state (_SHA256_Update ctx_63 abc 3 zero_tmp32).1
     = absorb (state ctx_63) (pending ctx_63 ++ take 3 abc) ((buffered ctx_63 + 3) / 64)
  /\ pending (_SHA256_Update ctx_63 abc 3 zero_tmp32).1
     = drop (64 * ((buffered ctx_63 + 3) / 64)) (pending ctx_63 ++ take 3 abc).
Proof.
  split; [split; reflexivity|]. split; [reflexivity|]. split; [vm_compute; lia|].
  destruct (X8_Update_blocks_and_rest ctx_63 abc 3 zero_tmp32) as (H1 & H2 & _);
    [split; reflexivity | reflexivity | vm_compute; lia |].
  split; [exact H1 | exact H2].
Defined.

(** X9. Updates compose: feeding [a] and then [b] leaves the same state,
    the same bit count and the same buffered bytes as feeding [a ++ b] in
    one call, from any context. *)
Theorem X9_Update_composes (ctx : SHA256_CTX) (a b : list byte)
    (tmp32 tmp32' : list Z) :
  ctx_ok ctx -> tmp_ok tmp32 -> tmp_ok tmp32' ->
  state (_SHA256_Update (_SHA256_Update ctx a (length a) tmp32).1 b (length b)
           (_SHA256_Update ctx a (length a) tmp32).2).1
  = state (_SHA256_Update ctx (a ++ b) (length (a ++ b)) tmp32').1
  /\ count (_SHA256_Update (_SHA256_Update ctx a (length a) tmp32).1 b (length b)
              (_SHA256_Update ctx a (length a) tmp32).2).1
     = count (_SHA256_Update ctx (a ++ b) (length (a ++ b)) tmp32').1
  /\ pending (_SHA256_Update (_SHA256_Update ctx a (length a) tmp32).1 b (length b)
                (_SHA256_Update ctx a (length a) tmp32).2).1
     = pending (_SHA256_Update ctx (a ++ b) (length (a ++ b)) tmp32').1.
Proof.
  intros Hok Htmp Htmp'.
  pose proof (pending_length ctx Hok) as Hp.
  destruct (Update_rest ctx a (length a) tmp32 Hok Htmp) as (A1 & A2 & A3 & A4);
    [lia|].
  destruct (Update_rest ctx (a ++ b) (length (a ++ b)) tmp32' Hok Htmp')
    as (C1 & C2 & _); [lia|].
  pose proof (Update_buffered ctx a (length a) tmp32) as Ra.
  pose proof (Update_count ctx a (length a) tmp32) as Ca.
  set (ctxa := (_SHA256_Update ctx a (length a) tmp32).1) in *.
  set (tmpa := (_SHA256_Update ctx a (length a) tmp32).2) in *.
  destruct (Update_rest ctxa b (length b) tmpa A3 A4) as (B1 & B2 & _);
    [lia|].
  rewrite !firstn_all in *.
  set (r := buffered ctx) in *. set (P := pending ctx) in *.
  set (ka := ((r + length a) / 64)%nat) in *.
  assert (Hk : ((r + length (a ++ b)) / 64
                = ka + (buffered ctxa + length b) / 64)%nat).
  { rewrite Ra, length_app. unfold ka. divmod_lia. }
  assert (Hd : drop (64 * ka) (P ++ a ++ b) = pending ctxa ++ b).
  { rewrite A2, app_assoc.
    rewrite drop_app_le by (rewrite length_app, Hp; unfold ka; divmod_lia).
    reflexivity. }
  split; [|split].
  - rewrite B1, C1, Hk, absorb_add, Hd, A1.
    rewrite (absorb_ext (state ctx) (P ++ a ++ b) (P ++ a) ka); [reflexivity|].
    rewrite app_assoc.
    rewrite take_app_le by (rewrite length_app, Hp; unfold ka; divmod_lia).
    reflexivity.
  - rewrite !Update_count, Ca, length_app.
    destruct (length a) as [|la]; destruct (length b) as [|lb]; cbn [Nat.add Nat.eqb];
      try reflexivity.
    + rewrite Nat.add_0_r. reflexivity.
    + divmod_lia.
  - rewrite B2, C2, Hk, Nat.mul_add_distr_l, <- drop_drop, Hd. reflexivity.
Qed.

Lemma X9_witness :
  ctx_ok ctx_63 /\ tmp_ok zero_tmp32
  /\ pending (_SHA256_Update (_SHA256_Update ctx_63 abc (length abc) zero_tmp32).1
                abc (length abc)
                (_SHA256_Update ctx_63 abc (length abc) zero_tmp32).2).1
     = pending (_SHA256_Update ctx_63 (abc ++ abc) (length (abc ++ abc)) zero_tmp32).1.
Proof.
  split; [split; reflexivity|]. split; [reflexivity|].
  apply (X9_Update_composes ctx_63 abc abc zero_tmp32 zero_tmp32);
    [split; reflexivity | reflexivity | reflexivity].
Defined.

(** *** Values stay in their C types *)

Lemma absorb_range (st : list Z) (data : list byte) (n : nat) :
  Forall (fun w => (0 <= w < 2 ^ 32)%Z) st ->
  Forall (fun w => (0 <= w < 2 ^ 32)%Z) (absorb st data n).
Proof.
  intros H. destruct n as [|n]; [exact H|].
  rewrite absorb_S_back. apply compress_range.
Qed.

Lemma initial_state_range : Forall (fun w => (0 <= w < 2 ^ 32)%Z) initial_state.
Proof. unfold initial_state. repeat (constructor; [lia|]). constructor. Qed.

Lemma pad_state_range (st : list Z) (c : Z) (p : list byte) :
  Forall (fun w => (0 <= w < 2 ^ 32)%Z) (pad_state st c p).
Proof. unfold pad_state. destruct (length p <? 56)%nat; apply compress_range. Qed.

Lemma Init_typed (ctx : SHA256_CTX) : ctx_ok ctx -> ctx_typed (SHA256_Init ctx).
Proof.
  intros Hok. destruct (Init_represents ctx Hok) as (H1 & H2 & H3 & _).
  split; [exact H1|]. split.
  - rewrite H2. apply initial_state_range.
  - rewrite H3. cbn. lia.
Qed.

Lemma Update_typed (ctx : SHA256_CTX) (in_ : list byte) (len : nat) (tmp32 : list Z) :
  ctx_typed ctx -> tmp_ok tmp32 -> (len <= length in_)%nat ->
  ctx_typed (_SHA256_Update ctx in_ len tmp32).1
  /\ tmp_ok (_SHA256_Update ctx in_ len tmp32).2.
Proof.
  intros (Hok & Hs & Hc) Htmp Hlen.
  destruct (Update_rest ctx in_ len tmp32 Hok Htmp Hlen) as (U1 & _ & U3 & U4).
  split; [|exact U4]. split; [exact U3|]. split.
  - rewrite U1. apply absorb_range. exact Hs.
  - rewrite Update_count. destruct (len =? 0)%nat; [exact Hc|].
    apply Z.mod_pos_bound. lia.
Qed.

Lemma Pad_typed (ctx : SHA256_CTX) (tmp32 : list Z) :
  ctx_typed ctx -> tmp_ok tmp32 ->
  ctx_typed (SHA256_Pad ctx tmp32).1 /\ tmp_ok (SHA256_Pad ctx tmp32).2.
Proof.
  intros (Hok & Hs & Hc) Htmp.
  destruct (Pad_spec ctx tmp32 Hok Htmp) as (P1 & P2 & _ & P4 & P5).
  split; [|exact P5]. split; [exact P4|]. split.
  - rewrite P1. apply pad_state_range.
  - rewrite P2. exact Hc.
Qed.

(** X10. The fields keep the sizes and ranges of their C types:
    [SHA256_Init] makes a context with 8 state words below 2^32, a count
    below 2^64 and a buffer of 64 bytes; [_SHA256_Update], [SHA256_Pad] and
    [_SHA256_Final] keep these, and keep the 72 words of the scratch
    area. *)
Theorem X10_types_are_kept (ctx : SHA256_CTX) (in_ digest : list byte)
    (len : nat) (tmp32 : list Z) :
  (ctx_ok ctx -> ctx_typed (SHA256_Init ctx))
  /\ (ctx_typed ctx -> tmp_ok tmp32 -> (len <= length in_)%nat ->
        ctx_typed (_SHA256_Update ctx in_ len tmp32).1
        /\ tmp_ok (_SHA256_Update ctx in_ len tmp32).2)
  /\ (ctx_typed ctx -> tmp_ok tmp32 ->
        ctx_typed (SHA256_Pad ctx tmp32).1 /\ tmp_ok (SHA256_Pad ctx tmp32).2)
  /\ (ctx_typed ctx -> tmp_ok tmp32 ->
        ctx_typed (_SHA256_Final digest ctx tmp32).1.2
        /\ tmp_ok (_SHA256_Final digest ctx tmp32).2).
Proof.
  split; [apply Init_typed|]. split; [apply Update_typed|].
  split; [apply Pad_typed|].
  intros Ht Htmp. pose proof (Pad_typed ctx tmp32 Ht Htmp) as P.
  unfold _SHA256_Final. destruct (SHA256_Pad ctx tmp32) as [c t]. exact P.
Qed.

Lemma X10_witness :
  ctx_ok zero_ctx /\ tmp_ok zero_tmp32 /\ (3 <= length abc)%nat
  /\ ctx_typed (SHA256_Init zero_ctx)
  /\ ctx_typed (_SHA256_Update (SHA256_Init zero_ctx) abc 3 zero_tmp32).1
  /\ ctx_typed (_SHA256_Final zero_digest
                  (_SHA256_Update (SHA256_Init zero_ctx) abc 3 zero_tmp32).1
                  (_SHA256_Update (SHA256_Init zero_ctx) abc 3 zero_tmp32).2).1.2.
Proof.
  split; [split; reflexivity|]. split; [reflexivity|]. split; [vm_compute; lia|].
  destruct (X10_types_are_kept zero_ctx abc zero_digest 3 zero_tmp32) as (I & _).
  pose proof (I (conj eq_refl eq_refl)) as HI.
  destruct (X10_types_are_kept (SHA256_Init zero_ctx) abc zero_digest 3 zero_tmp32)
    as (_ & U & _).
  destruct (U HI eq_refl) as (HU & HT); [vm_compute; lia|].
  destruct (X10_types_are_kept
              (_SHA256_Update (SHA256_Init zero_ctx) abc 3 zero_tmp32).1 abc zero_digest 3
              (_SHA256_Update (SHA256_Init zero_ctx) abc 3 zero_tmp32).2)
    as (_ & _ & _ & F).
  destruct (F HU HT) as (HF & _).
  split; [exact HI|]. split; [exact HU | exact HF].
Defined.

(** *** The digest *)

Lemma map_mod_range (l : list Z) :
  Forall (fun w => (0 <= w < 2 ^ 32)%Z) l -> map (fun w => (w mod 2 ^ 32)%Z) l = l.
Proof.
  induction 1 as [|x l Hx _ IH]; [reflexivity|].
  cbn [map]. rewrite IH, Z.mod_small by exact Hx. reflexivity.
Qed.

(** X11. The digest is the big-endian encoding of the final state:
    [_SHA256_Final] writes 32 bytes, leaves the bytes of the digest buffer
    after them alone, and decoding the 32 bytes with [be32dec_vect] gives
    the 8 words of the state it leaves in the context. *)
Theorem X11_digest_encodes_state (digest : list byte) (ctx : SHA256_CTX)
    (tmp32 dst : list Z) :
  ctx_ok ctx -> tmp_ok tmp32 -> (8 <= length dst)%nat ->
  be32dec_vect dst (_SHA256_Final digest ctx tmp32).1.1 4
  = state (_SHA256_Final digest ctx tmp32).1.2 ++ drop 8 dst
  /\ length (take 32 (_SHA256_Final digest ctx tmp32).1.1) = 32%nat
  /\ drop 32 (_SHA256_Final digest ctx tmp32).1.1 = drop 32 digest.
Proof.
  intros Hok Htmp Hd.
  destruct (Pad_spec ctx tmp32 Hok Htmp) as (P1 & _ & _ & (Hl & _) & _).
  pose proof (pad_state_range (state ctx) (count ctx) (pending ctx)) as Hr.
  rewrite <- P1 in Hr.
  unfold _SHA256_Final. destruct (SHA256_Pad ctx tmp32) as [c t].
  cbn [fst snd] in *.
  split; [|split].
  - rewrite (be32_round_trip_S 3) by lia.
    rewrite (take_ge (state c)) by lia. rewrite map_mod_range by exact Hr.
    reflexivity.
  - rewrite be32enc_vect_4, take_app_length' by reflexivity. reflexivity.
  - rewrite be32enc_vect_4, drop_app_length' by reflexivity. reflexivity.
Qed.

Lemma X11_witness :
  ctx_ok ctx_63 /\ tmp_ok zero_tmp32 /\ (8 <= length (replicate 8 0%Z))%nat
  /\ be32dec_vect (replicate 8 0%Z) (_SHA256_Final zero_digest ctx_63 zero_tmp32).1.1 4
     = state (_SHA256_Final zero_digest ctx_63 zero_tmp32).1.2 ++ drop 8 (replicate 8 0%Z).
Proof.
  split; [split; reflexivity|]. split; [reflexivity|]. split; [vm_compute; lia|].
  apply (X11_digest_encodes_state zero_digest ctx_63 zero_tmp32 (replicate 8 0%Z));
    [split; reflexivity | reflexivity | vm_compute; lia].
Defined.

(** *** The hash as iterated compression of the padded message *)

Lemma padding_length (n : nat) : length (padding n) = (pad_zeros n + 9)%nat.
Proof.
  unfold padding. cbn [length]. rewrite length_app, length_replicate, be64enc_length. lia.
Qed.

Lemma sha256_padded (M : list byte) :
  pad_state (absorb initial_state M (length M / 64))
            ((8 * Z.of_nat (length M)) mod 2 ^ 64)%Z
            (drop (64 * (length M / 64)) M)
  = absorb initial_state (M ++ padding (length M))
      (length (M ++ padding (length M)) / 64).
Proof.
  set (n := length M). set (q := (n / 64)%nat). set (c := ((8 * Z.of_nat n) mod 2 ^ 64)%Z).
  set (p := drop (64 * q) M).
  assert (Hp : length p = (n mod 64)%nat).
  { unfold p. rewrite length_drop. fold n. unfold q. divmod_lia. }
  assert (Hq : (64 * q <= length M)%nat) by (fold n; unfold q; divmod_lia).
  assert (Ha : forall X, absorb initial_state (M ++ X) q = absorb initial_state M q).
  { intros X. apply absorb_ext. rewrite take_app_le by exact Hq. reflexivity. }
  assert (Hd : forall X, drop (64 * q) (M ++ X) = p ++ X).
  { intros X. rewrite drop_app_le by exact Hq. reflexivity. }
  rewrite length_app, padding_length. fold n.
  unfold pad_state, padding, pad_zeros. fold c. rewrite Hp.
  destruct (n mod 64 <? 56)%nat eqn:E.
  - apply Nat.ltb_lt in E.
    replace ((119 - n mod 64) mod 64)%nat with (55 - n mod 64)%nat by divmod_lia.
    replace ((n + (55 - n mod 64 + 9)) / 64)%nat with (S q) by (unfold q; divmod_lia).
    rewrite absorb_S_back, Ha, Hd. reflexivity.
  - apply Nat.ltb_ge in E.
    replace ((119 - n mod 64) mod 64)%nat with ((63 - n mod 64) + 56)%nat by divmod_lia.
    replace ((n + (63 - n mod 64 + 56 + 9)) / 64)%nat with (S (S q)) by (unfold q; divmod_lia).
    rewrite replicate_add.
    rewrite (absorb_S_back _ _ (S q)), absorb_S_back, Ha, Hd.
    set (A := p ++ x80 :: replicate (63 - n mod 64) x00).
    assert (HA : length A = 64%nat).
    { unfold A. rewrite length_app, Hp. cbn [length]. rewrite length_replicate. lia. }
    set (B := replicate 56 x00 ++ be64enc [] c).
    assert (HAB : p ++ x80 :: (replicate (63 - n mod 64) x00 ++ replicate 56 x00)
                      ++ be64enc [] c = A ++ B).
    { unfold A, B. rewrite <- !app_assoc. reflexivity. }
    rewrite HAB.
    rewrite (compress_ext _ (A ++ B) A)
      by (rewrite take_app_le by lia; reflexivity).
    replace (64 * S q)%nat with (64 * q + 64)%nat by lia.
    rewrite <- drop_drop, Hd, HAB, drop_app_length' by (symmetry; exact HA).
    reflexivity.
Qed.

(** X12. [SHA256_Buf] is the Merkle-Damgard iteration of the compression
    function: the digest is the encoding of the state reached from
    [initial_state] over the blocks of the message followed by 0x80, the
    least number of zero bytes and the 64-bit big-endian bit length; that
    padded message is a whole number of 64-byte blocks. *)
Theorem X12_hash_of_padded_message (M digest : list byte) (ctx : SHA256_CTX)
    (tmp32 : list Z) :
  ctx_ok ctx -> tmp_ok tmp32 ->
  SHA256_Buf M (length M) digest ctx tmp32
  = digest_bytes
      (absorb initial_state (M ++ padding (length M))
         (length (M ++ padding (length M)) / 64))
    ++ drop 32 digest
  /\ (length (M ++ padding (length M)) mod 64 = 0)%nat
  /\ (pad_zeros (length M) < 64)%nat.
Proof.
  intros Hok Htmp. split; [|split].
  - rewrite SHA256_Buf_spec, firstn_all by (assumption || lia).
    unfold sha256. rewrite sha256_padded. reflexivity.
  - rewrite length_app, padding_length. unfold pad_zeros. divmod_lia.
  - unfold pad_zeros. divmod_lia.
Qed.

Lemma X12_witness :
  ctx_ok zero_ctx /\ tmp_ok zero_tmp32
  /\ (SHA256_Buf abc (length abc) zero_digest zero_ctx zero_tmp32
      = digest_bytes
          (absorb initial_state (abc ++ padding (length abc))
             (length (abc ++ padding (length abc)) / 64))
        ++ drop 32 zero_digest
      /\ (length (abc ++ padding (length abc)) mod 64 = 0)%nat
      /\ (pad_zeros (length abc) < 64)%nat).
Proof.
  split; [split; reflexivity|]. split; [reflexivity|].
  apply (X12_hash_of_padded_message abc zero_digest zero_ctx zero_tmp32);
    [split; reflexivity | reflexivity].
Defined.

(** *** What the functions read *)

(** X13. Only the first [len] bytes of the input are read: two inputs that
    agree on them leave the same state, count and buffered bytes after
    [_SHA256_Update] from the same context, and give the same memory at
    [digest] after [SHA256_Buf]. *)
Theorem X13_reads_len_bytes (ctx ctx1 ctx2 : SHA256_CTX) (in1 in2 digest : list byte)
    (len : nat) (tmp32 tmp1 tmp2 : list Z) :
  ctx_ok ctx -> tmp_ok tmp32 -> ctx_ok ctx1 -> tmp_ok tmp1 -> ctx_ok ctx2 -> tmp_ok tmp2 ->
  (len <= length in1)%nat -> (len <= length in2)%nat ->
  take len in1 = take len in2 ->
  state (_SHA256_Update ctx in1 len tmp32).1 = state (_SHA256_Update ctx in2 len tmp32).1
  /\ count (_SHA256_Update ctx in1 len tmp32).1 = count (_SHA256_Update ctx in2 len tmp32).1
  /\ pending (_SHA256_Update ctx in1 len tmp32).1
     = pending (_SHA256_Update ctx in2 len tmp32).1
  /\ SHA256_Buf in1 len digest ctx1 tmp1 = SHA256_Buf in2 len digest ctx2 tmp2.
Proof.
  intros Hok Htmp Hok1 Htmp1 Hok2 Htmp2 H1 H2 E.
  destruct (Update_rest ctx in1 len tmp32 Hok Htmp H1) as (A1 & A2 & _).
  destruct (Update_rest ctx in2 len tmp32 Hok Htmp H2) as (B1 & B2 & _).
  split; [rewrite A1, B1, E; reflexivity|].
  split; [rewrite !Update_count; reflexivity|].
  split; [rewrite A2, B2, E; reflexivity|].
  rewrite !SHA256_Buf_spec by assumption. rewrite E. reflexivity.
Qed.

Lemma X13_witness :
  ctx_ok zero_ctx /\ tmp_ok zero_tmp32
  /\ (3 <= length abc)%nat /\ (3 <= length (abc ++ [xff; xfe]))%nat
  /\ take 3 abc = take 3 (abc ++ [xff; xfe])
  /\ SHA256_Buf abc 3 zero_digest zero_ctx zero_tmp32
     = SHA256_Buf (abc ++ [xff; xfe]) 3 zero_digest zero_ctx zero_tmp32.
Proof.
  split; [split; reflexivity|]. split; [reflexivity|].
  split; [vm_compute; lia|]. split; [vm_compute; lia|]. split; [reflexivity|].
  apply (X13_reads_len_bytes zero_ctx zero_ctx zero_ctx abc (abc ++ [xff; xfe])
           zero_digest 3 zero_tmp32 zero_tmp32 zero_tmp32);
    [split; reflexivity | reflexivity | split; reflexivity | reflexivity
    | split; reflexivity | reflexivity | vm_compute; lia | vm_compute; lia | reflexivity].
Defined.

(** X14. [SHA256d_Buf] with a length above 32: the second pass hashes the
    32 bytes of the first digest followed by the [len - 32] bytes that the
    caller's buffer held after them, so the result depends on memory that
    the first pass did not write. *)
Theorem X14_double_hash_reads_past_digest (in_ digest : list byte) (len : nat)
    (ctx ctx' : SHA256_CTX) (tmp32 tmp32' : list Z) :
  ctx_ok ctx -> tmp_ok tmp32 -> ctx_ok ctx' -> tmp_ok tmp32' ->
  (len <= length in_)%nat -> (32 <= len <= length digest)%nat ->
  SHA256d_Buf in_ len digest ctx tmp32
  = SHA256_Buf
      (take 32 (SHA256_Buf in_ len digest ctx tmp32)
         ++ take (len - 32) (drop 32 digest))
      len digest ctx' tmp32'.
Proof.
  intros Hok Htmp Hok' Htmp' Hl Hd.
  assert (HD : SHA256_Buf in_ len digest ctx tmp32
               = sha256 (take len in_) ++ drop 32 digest)
    by (apply SHA256_Buf_spec; assumption).
  assert (HL : (len <= length (SHA256_Buf in_ len digest ctx tmp32))%nat).
  { rewrite HD, length_app, sha256_length, length_drop. lia. }
  rewrite SHA256d_Buf_spec by assumption.
  rewrite HD, take_32_digest.
  rewrite SHA256_Buf_spec
    by (try assumption; rewrite length_app, sha256_length, length_take, length_drop; lia).
  rewrite !take_app_ge by (rewrite sha256_length; lia).
  rewrite sha256_length, take_idemp. reflexivity.
Qed.

Lemma X14_witness :
  ctx_ok zero_ctx /\ tmp_ok zero_tmp32
  /\ (33 <= length (replicate 33 x61))%nat
  /\ (32 <= 33 <= length (zero_digest ++ [x07]))%nat
  /\ SHA256d_Buf (replicate 33 x61) 33 (zero_digest ++ [x07]) zero_ctx zero_tmp32
     = SHA256_Buf
         (take 32 (SHA256_Buf (replicate 33 x61) 33 (zero_digest ++ [x07])
                     zero_ctx zero_tmp32)
            ++ take (33 - 32) (drop 32 (zero_digest ++ [x07])))
         33 (zero_digest ++ [x07]) zero_ctx zero_tmp32.
Proof.
  split; [split; reflexivity|]. split; [reflexivity|].
  split; [vm_compute; lia|]. split; [vm_compute; lia|].
  apply (X14_double_hash_reads_past_digest (replicate 33 x61) (zero_digest ++ [x07]) 33
           zero_ctx zero_ctx zero_tmp32 zero_tmp32);
    [split; reflexivity | reflexivity | split; reflexivity | reflexivity
    | vm_compute; lia | vm_compute; lia].
Defined.

(** X17. [SHA256d_Buf] with a length of at most 32: the second pass reads
    only the first [len] bytes of the first digest.  The 32 bytes written
    are the hash of these bytes (of the whole first digest at [len = 32]),
    they do not depend on what the digest buffer or the locals held, and
    the bytes after them are left alone. *)
Theorem X17_double_hash_short_length (in_ digest dg : list byte) (len : nat)
    (ctx ctx' : SHA256_CTX) (tmp32 tmp32' : list Z) :
  ctx_ok ctx -> tmp_ok tmp32 -> ctx_ok ctx' -> tmp_ok tmp32' ->
  (len <= length in_)%nat -> (len <= 32)%nat ->
  SHA256d_Buf in_ len digest ctx tmp32
  = SHA256_Buf (SHA256_Buf in_ len digest ctx tmp32) len
      (SHA256_Buf in_ len digest ctx tmp32) ctx' tmp32'
  /\ SHA256d_Buf in_ len digest ctx tmp32
     = take 32 (SHA256_Buf
                  (take len (take 32 (SHA256_Buf in_ len digest ctx tmp32)))
                  len dg ctx' tmp32')
       ++ drop 32 digest
  /\ take 32 (SHA256d_Buf in_ len digest ctx tmp32)
     = take 32 (SHA256d_Buf in_ len dg ctx' tmp32')
  /\ (len = 32%nat ->
      take 32 (SHA256d_Buf in_ len digest ctx tmp32)
      = take 32 (SHA256_Buf (take 32 (SHA256_Buf in_ len digest ctx tmp32))
                   32 dg ctx' tmp32')).
Proof.
  intros Hok Htmp Hok' Htmp' Hl H32.
  assert (HD : forall d c t, ctx_ok c -> tmp_ok t ->
             SHA256_Buf in_ len d c t = sha256 (take len in_) ++ drop 32 d).
  { intros d c t Hc Ht. apply SHA256_Buf_spec; assumption. }
  assert (HS : forall d c t, ctx_ok c -> tmp_ok t ->
             SHA256d_Buf in_ len d c t
             = sha256 (take len (sha256 (take len in_))) ++ drop 32 d).
  { intros d c t Hc Ht. rewrite SHA256d_Buf_spec; try assumption.
    - rewrite HD by assumption.
      rewrite take_app_le by (rewrite sha256_length; lia). reflexivity.
    - rewrite HD, length_app, sha256_length by assumption. lia. }
  split; [|split; [|split]].
  - rewrite HS, HD by assumption.
    rewrite SHA256_Buf_spec
      by (try assumption; rewrite length_app, sha256_length; lia).
    rewrite drop_32_digest, take_app_le by (rewrite sha256_length; lia).
    reflexivity.
  - rewrite HS, HD, take_32_digest by assumption.
    rewrite SHA256_Buf_spec
      by (try assumption; rewrite length_take, sha256_length; lia).
    rewrite take_32_digest, take_idemp. reflexivity.
  - rewrite !HS by assumption. rewrite !take_32_digest. reflexivity.
  - intros ->. rewrite HS, HD, take_32_digest by assumption.
    rewrite SHA256_Buf_spec by (try assumption; rewrite sha256_length; lia).
    rewrite take_32_digest. reflexivity.
Qed.

Lemma X17_witness :
  ctx_ok zero_ctx /\ tmp_ok zero_tmp32
  /\ (3 <= length abc)%nat /\ (3 <= 32)%nat
  /\ SHA256d_Buf abc 3 zero_digest zero_ctx zero_tmp32
     = take 32 (SHA256_Buf
                  (take 3 (take 32 (SHA256_Buf abc 3 zero_digest zero_ctx zero_tmp32)))
                  3 zero_digest zero_ctx zero_tmp32)
       ++ drop 32 zero_digest.
Proof.
  split; [split; reflexivity|]. split; [reflexivity|].
  split; [vm_compute; lia|]. split; [lia|].
  destruct (X17_double_hash_short_length abc zero_digest zero_digest 3
              zero_ctx zero_ctx zero_tmp32 zero_tmp32) as (_ & H & _);
    [split; reflexivity | reflexivity | split; reflexivity | reflexivity
    | vm_compute; lia | lia | exact H].
Defined.

(** *** The loop over complete blocks ends *)

Lemma Update_blocks_more_fuel (fuel : nat) (st : list Z) (src : list byte)
    (len : nat) (tmp32 : list Z) :
  (len / 64 <= fuel)%nat ->
  Update_blocks (S fuel) st src len tmp32 = Update_blocks fuel st src len tmp32.
Proof.
  revert st src len tmp32. induction fuel as [|fuel IH]; intros st src len tmp32 H.
  - cbn [Update_blocks].
    assert ((64 <=? len)%nat = false) as -> by (apply Nat.leb_gt; divmod_lia).
    reflexivity.
  - change (Update_blocks (S (S fuel)) st src len tmp32)
      with (if (64 <=? len)%nat
            then let '(st', tmp') := Transform_tmp32 st src tmp32 in
                 Update_blocks (S fuel) st' (drop 64 src) (len - 64) tmp'
            else (st, src, len, tmp32)).
    change (Update_blocks (S fuel) st src len tmp32)
      with (if (64 <=? len)%nat
            then let '(st', tmp') := Transform_tmp32 st src tmp32 in
                 Update_blocks fuel st' (drop 64 src) (len - 64) tmp'
            else (st, src, len, tmp32)).
    destruct (64 <=? len)%nat eqn:E; [|reflexivity].
    apply Nat.leb_le in E.
    destruct (Transform_tmp32 st src tmp32) as [st' tmp'].
    apply IH. divmod_lia.
Qed.

Lemma Update_blocks_enough_fuel (fuel : nat) (st : list Z) (src : list byte)
    (len : nat) (tmp32 : list Z) :
  (len / 64 <= fuel)%nat ->
  Update_blocks fuel st src len tmp32 = Update_blocks (len / 64) st src len tmp32.
Proof.
  intros H. induction fuel as [|fuel IH].
  - replace (len / 64)%nat with 0%nat by lia. reflexivity.
  - destruct (decide (len / 64 = S fuel)%nat) as [->|Hne]; [reflexivity|].
    rewrite Update_blocks_more_fuel by lia. apply IH. lia.
Qed.

Lemma Update_blocks_rest (fuel : nat) (st : list Z) (src : list byte)
    (len : nat) (tmp32 : list Z) :
  (len / 64 <= fuel)%nat ->
  (Update_blocks fuel st src len tmp32).1.2 = (len mod 64)%nat
  /\ (Update_blocks fuel st src len tmp32).1.1.2 = drop (64 * (len / 64)) src.
Proof.
  revert st src len tmp32. induction fuel as [|fuel IH]; intros st src len tmp32 H.
  - cbn [Update_blocks fst snd].
    replace (len / 64)%nat with 0%nat by lia. rewrite Nat.mul_0_r, drop_0.
    split; [divmod_lia | reflexivity].
  - cbn [Update_blocks]. destruct (64 <=? len)%nat eqn:E.
    + apply Nat.leb_le in E. destruct (Transform_tmp32 st src tmp32) as [st' tmp'].
      destruct (IH st' (drop 64 src) (len - 64)%nat tmp') as (I1 & I2); [divmod_lia|].
      rewrite I1, I2, drop_drop. split; [divmod_lia|].
      f_equal. divmod_lia.
    + apply Nat.leb_gt in E. cbn [fst snd].
      replace (len / 64)%nat with 0%nat by divmod_lia. rewrite Nat.mul_0_r, drop_0.
      split; [divmod_lia | reflexivity].
Qed.

(** X15. The loop [while (len >= 64)] of [_SHA256_Update] ends after
    [len / 64] passes: any larger bound on the number of passes gives the
    same result, the length left is [len mod 64], below 64, and the read
    pointer has advanced by 64 bytes per pass. *)
Theorem X15_block_loop_ends (fuel : nat) (st : list Z) (src : list byte)
    (len : nat) (tmp32 : list Z) :
  (len / 64 <= fuel)%nat ->
  Update_blocks fuel st src len tmp32 = Update_blocks (len / 64) st src len tmp32
  /\ (Update_blocks fuel st src len tmp32).1.2 = (len mod 64)%nat
  /\ ((Update_blocks fuel st src len tmp32).1.2 < 64)%nat
  /\ (Update_blocks fuel st src len tmp32).1.1.2 = drop (64 * (len / 64)) src.
Proof.
  intros H. destruct (Update_blocks_rest fuel st src len tmp32 H) as (R1 & R2).
  split; [apply Update_blocks_enough_fuel; exact H|].
  split; [exact R1|]. split; [rewrite R1; divmod_lia | exact R2].
Qed.

Lemma X15_witness :
  (130 / 64 <= 130)%nat
  /\ (Update_blocks 130 initial_state (replicate 130 x61) 130 zero_tmp32
      = Update_blocks (130 / 64) initial_state (replicate 130 x61) 130 zero_tmp32
      /\ (Update_blocks 130 initial_state (replicate 130 x61) 130 zero_tmp32).1.2
         = (130 mod 64)%nat
      /\ ((Update_blocks 130 initial_state (replicate 130 x61) 130 zero_tmp32).1.2 < 64)%nat
      /\ (Update_blocks 130 initial_state (replicate 130 x61) 130 zero_tmp32).1.1.2
         = drop (64 * (130 / 64)) (replicate 130 x61)).
Proof.
  split; [vm_compute; lia|].
  apply (X15_block_loop_ends 130 initial_state (replicate 130 x61) 130 zero_tmp32).
  vm_compute; lia.
Defined.

(** *** The padding determines the message *)

Lemma padded_tail (M : list byte) (n : nat) :
  drop (length (M ++ padding n) - 8) (M ++ padding n)
  = be64enc [] ((8 * Z.of_nat n) mod 2 ^ 64)%Z.
Proof.
  unfold padding.
  change (M ++ x80 :: replicate (pad_zeros n) x00 ++ be64enc [] ((8 * Z.of_nat n) mod 2 ^ 64)%Z)
    with (M ++ (x80 :: replicate (pad_zeros n) x00) ++ be64enc [] ((8 * Z.of_nat n) mod 2 ^ 64)%Z).
  rewrite app_assoc. apply drop_app_length'.
  rewrite (length_app (M ++ _)), be64enc_length. lia.
Qed.

(** X16. The padded message determines the message: two messages of fewer
    than 2^61 bytes whose padded forms (message, 0x80, zeros, bit length)
    are the same list of bytes are the same message, so no two different
    messages are fed to the compression function as the same blocks. *)
Theorem X16_padding_injective (M1 M2 : list byte) :
  (8 * Z.of_nat (length M1) < 2 ^ 64)%Z -> (8 * Z.of_nat (length M2) < 2 ^ 64)%Z ->
  M1 ++ padding (length M1) = M2 ++ padding (length M2) ->
  M1 = M2.
Proof.
  intros H1 H2 E.
  pose proof (padded_tail M1 (length M1)) as T1.
  pose proof (padded_tail M2 (length M2)) as T2.
  rewrite E, T2 in T1.
  apply (f_equal be_value) in T1. rewrite !be64enc_value in T1.
  rewrite !Z.mod_mod, !Z.mod_small in T1 by lia.
  assert (Hn : length M1 = length M2) by lia.
  apply (f_equal (take (length M1))) in E.
  rewrite take_app_length in E. rewrite Hn, take_app_length in E. exact E.
Qed.

Lemma X16_witness :
  (8 * Z.of_nat (length abc) < 2 ^ 64)%Z
  /\ abc ++ padding (length abc) = abc ++ padding (length abc)
  /\ abc = abc.
Proof.
  split; [vm_compute; reflexivity|]. split; [reflexivity|].
  apply (X16_padding_injective abc abc);
    [vm_compute; reflexivity | vm_compute; reflexivity | reflexivity].
Defined.
